(** * runn: the step execution engine and the gRPC runner

    A shallow embedding of [operator.go] (result recording, the step
    function, the loop branch of [runInternal], [partOperators]) and of
    [grpc.go] (connection establishment, unary / client-streaming /
    bidi-streaming invocation), with the properties the specification
    states about them. *)

From Stdlib Require Import ZArith Lia.
From stdpp Require Import base option list strings gmap fin_maps.

Open Scope string_scope.
Open Scope list_scope.
Open Scope Z_scope.

(** ** Go values *)

(** [interface{}] values that end up in the store.  Nested mappings
    ([map[string]interface{}]) are finite maps; [metadata.MD] is a
    mapping from header name to its list of values. *)
#[warnings="-register-all"]
Inductive value : Type :=
| VNil
| VBool (b : bool)
| VInt (z : Z)
| VStr (s : string)
| VList (vs : list value)
| VMD (md : gmap string (list string))
| VMap (m : gmap string value).

(** A per-step result mapping, [map[string]interface{}]. *)
Abbreviation result := (gmap string value).

(** Go's [error]; [None] in an [option error] is [nil]. *)
Inductive error : Type :=
| ErrExternal (msg : string)
| ErrEOF
| ErrCanceled
| ErrStatus (code : Z) (msg : string)
| ErrWrap (prefix : string) (e : error)
| ErrInvalidRunner
| ErrInvalidOp (op : string)
| ErrUntilNotTrue (until tree : string)
| ErrRetryLoop (count : Z) (e : error)
| ErrMsg (msg : string).

(** ** Outcomes of Go code that may panic *)

(** A computation over a state [S] either returns a value and a new
    state, or panics (index or slice bounds out of range). *)
Inductive outcome (S A : Type) : Type :=
| Ret (a : A) (s : S)
| Panic.
Arguments Ret {S A} a s.
Arguments Panic {S A}.

Definition M (S A : Type) : Type := S → outcome S A.

#[global] Instance M_ret {S} : MRet (M S) := λ A a s, Ret a s.
#[global] Instance M_bind {S} : MBind (M S) := λ A B k m s,
  match m s with
  | Ret a s' => k a s'
  | Panic => Panic
  end.

Definition get {S} : M S S := λ s, Ret s s.
Definition modify {S} (f : S → S) : M S unit := λ s, Ret tt (f s).
Definition panic {S A} : M S A := λ _, Panic.

Module Operator.

(** ** Data model ([operator.go]) *)

Definition storeStepRunKey : string := "run".

Inductive runnerType : Type :=
| RunnerTypeHTTP | RunnerTypeDB | RunnerTypeGRPC | RunnerTypeCDP
| RunnerTypeExec | RunnerTypeInclude
| RunnerTypeDump | RunnerTypeBind | RunnerTypeTest.

(** [Loop]: the fields [runInternal] reads. *)
Record Loop : Type := mkLoop {
  Count : string;
  Until : string;
  interval : option Z;
  minInterval : option Z;
  maxInterval : option Z;
}.

(** [step].  A runner pointer and its request are kept as one optional
    field holding the request: [Some req] stands for "runner != nil &&
    request != nil".  The test runner keeps its two fields, because the
    code tests [testCond != ""] separately. *)
Record step : Type := mkStep {
  key : string;
  runnerKey : string;
  desc : string;
  cond : string;
  loop : option Loop;
  httpRequest : option value;
  dbQuery : option value;
  grpcRequest : option value;
  cdpActions : option value;
  execCommand : option value;
  includeConfig : option value;
  testRunner : bool;
  testCond : string;
  dumpRequest : option (string * string);
  bindCond : option (gmap string string);
}.

(** [store]: the fields the recording code touches. *)
Record store : Type := mkStore {
  steps_ : list result;
  stepMap : gmap string result;
  bindVars : gmap string value;
  loopIndex : option Z;
}.

(** A call [Run] into a runner: which runner, and the store it finds. *)
Inductive call : Type :=
| CallRun (k : runnerType) (seen : store).

(** [operator]: the fields the step engine reads or writes, and the
    sequence of runner calls made so far. *)
Record operator : Type := mkOperator {
  steps : list step;
  store_ : store;
  useMap : bool;
  skipTest : bool;
  calls : list call;
}.

Definition set_store (f : store → store) (o : operator) : operator :=
  {| steps := steps o; store_ := f (store_ o); useMap := useMap o;
     skipTest := skipTest o; calls := calls o |}.

Definition log_call (c : call) (o : operator) : operator :=
  {| steps := steps o; store_ := store_ o; useMap := useMap o;
     skipTest := skipTest o; calls := calls o ++ [c] |}.

Definition set_steps_ (l : list result) (st : store) : store :=
  {| steps_ := l; stepMap := stepMap st; bindVars := bindVars st;
     loopIndex := loopIndex st |}.

Definition set_stepMap (m : gmap string result) (st : store) : store :=
  {| steps_ := steps_ st; stepMap := m; bindVars := bindVars st;
     loopIndex := loopIndex st |}.

Definition set_loopIndex (i : option Z) (st : store) : store :=
  {| steps_ := steps_ st; stepMap := stepMap st; bindVars := bindVars st;
     loopIndex := i |}.

Definition set_bindVars (b : gmap string value) (st : store) : store :=
  {| steps_ := steps_ st; stepMap := stepMap st; bindVars := b;
     loopIndex := loopIndex st |}.

(** The operator enters the [Run] of runner [k]. *)
Definition callRun (k : runnerType) : M operator unit :=
  o ← get;
  modify (log_call (CallRun k (store_ o))).

(** ** Recording ([skipStep], [record], [recordAsListed], [recordAsMapped]) *)

(** Modelled from the spec: [store.recordAsListed] (store.go is not part
    of the sources) appends the mapping to the ordered sequence [steps]. *)
Definition store_recordAsListed (v : result) (st : store) : store :=
  set_steps_ (steps_ st ++ [v]) st.

(** Modelled from the spec: [store.recordAsMapped] (store.go is not part
    of the sources) inserts the mapping into [stepMap] under the key. *)
Definition store_recordAsMapped (k : string) (v : result) (st : store) : store :=
  set_stepMap (<[k := v]> (stepMap st)) st.

(** [o.store.loopIndex != nil && *o.store.loopIndex > 0] *)
Definition inLaterIteration (st : store) : bool :=
  match loopIndex st with
  | Some i => 0 <? i
  | None => false
  end.

(** [s[:len(s)-1]]; panics on the empty slice. *)
Definition dropLast {A} (l : list A) : option (list A) :=
  match l with
  | [] => None
  | _ => Some (take (length l - 1) l)
  end.

(** [o.steps[i]] for a Go [int] index; panics out of range. *)
Definition stepAt (o : operator) (i : Z) : option step :=
  if i <? 0 then None else steps o !! Z.to_nat i.

Definition recordAsListed (v : result) : M operator unit :=
  o ← get;
  (if inLaterIteration (store_ o) then
     match dropLast (steps_ (store_ o)) with
     | Some l => modify (set_store (set_steps_ l))
     | None => panic
     end
   else mret tt) ;;
  modify (set_store (store_recordAsListed v)).

Definition recordAsMapped (v : result) : M operator unit :=
  o ← get;
  (if inLaterIteration (store_ o) then
     match stepAt o (Z.of_nat (size (stepMap (store_ o))) - 1) with
     | Some s => modify (set_store (fun st => set_stepMap (delete (key s) (stepMap st)) st))
     | None => panic
     end
   else mret tt) ;;
  o ← get;
  match stepAt o (Z.of_nat (size (stepMap (store_ o)))) with
  | Some s => modify (set_store (store_recordAsMapped (key s) v))
  | None => panic
  end.

Definition skipStep : M operator unit :=
  let v : result := <[storeStepRunKey := VBool false]> ∅ in
  o ← get;
  if useMap o then recordAsMapped v else recordAsListed v.

(** [record]; the argument is [None] for a [nil] map. *)
Definition record (v : option result) : M operator unit :=
  let v := match v with None => ∅ | Some v => v end in
  let v := <[storeStepRunKey := VBool true]> v in
  o ← get;
  if useMap o then recordAsMapped v else recordAsListed v.

(** ** The step function ([stepFn] in [runInternal]) *)

(** What the collaborators answer during one call of the step function.
    The runners other than gRPC, the expression evaluator and the loop
    policy are not part of the sources; every result they can produce is
    a possible value here, and the properties quantify over all of them.
    - [primaryOut]: the primary runner.  [PrepareFailed e]: expanding or
      parsing the request failed and the step function returns an error;
      [RunFailed e]: [Run] returned [e]; [RunOk v]: [Run] returned [nil]
      after its one call [operator.record(v)].
    - [dumpOut], [testOut]: what [dumpRunner.Run] / [testRunner.Run] return.
    - [bindOut]: [bindRunner.Run] fails, or writes the values into [bindVars].
    - [loopOut]: what [s.loop.Loop(ctx)] answers before this iteration.
    - [treeOut], [untilOut]: [buildTree] and [evalCond] on [s.loop.Until]. *)
Inductive primaryOutcome : Type :=
| PrepareFailed (e : error)
| RunFailed (e : error)
| RunOk (v : option result).

Record iteration : Type := mkIteration {
  primaryOut : primaryOutcome;
  dumpOut : option error;
  bindOut : error + gmap string value;
  testOut : option error;
  loopOut : bool;
  treeOut : error + string;
  untilOut : error + bool;
}.

(** The first case of the [switch] that matches. *)
Definition notNil {A} (x : option A) : bool :=
  match x with Some _ => true | None => false end.

Definition primaryType (s : step) : option runnerType :=
  if notNil (httpRequest s) then Some RunnerTypeHTTP
  else if notNil (dbQuery s) then Some RunnerTypeDB
  else if notNil (grpcRequest s) then Some RunnerTypeGRPC
  else if notNil (cdpActions s) then Some RunnerTypeCDP
  else if notNil (execCommand s) then Some RunnerTypeExec
  else if notNil (includeConfig s) then Some RunnerTypeInclude
  else None.

Definition failedOn (k : runnerType) : string :=
  match k with
  | RunnerTypeHTTP => "http request failed on"
  | RunnerTypeDB => "db query failed on"
  | RunnerTypeGRPC => "gRPC request failed on"
  | RunnerTypeCDP => "cdp action failed on"
  | RunnerTypeExec => "exec command failed on"
  | RunnerTypeInclude => "include failed on"
  | RunnerTypeDump => "dump failed on"
  | RunnerTypeBind => "bind failed on"
  | RunnerTypeTest => "test failed on"
  end.

(** A block of the step function either falls through, with the value of
    the local [run], or returns. *)
Inductive flow : Type :=
| Next (run : bool)
| Return (e : option error).

Definition andThen (m : M operator flow) (k : bool → M operator flow) : M operator flow :=
  f ← m;
  match f with
  | Next run => k run
  | Return e => mret (Return e)
  end.

Definition primaryBlock (s : step) (w : iteration) : M operator flow :=
  match primaryType s with
  | Some k =>
      match primaryOut w with
      | PrepareFailed e => mret (Return (Some e))
      | RunFailed e =>
          callRun k;;
          mret (Return (Some (ErrWrap (failedOn k) e)))
      | RunOk v =>
          callRun k;;
          record v;;
          mret (Next true)
      end
  | None => mret (Next false)
  end.

Definition dumpBlock (s : step) (w : iteration) (run : bool) : M operator flow :=
  match dumpRequest s with
  | Some _ =>
      (if negb run then record None else mret tt);;
      callRun RunnerTypeDump;;
      match dumpOut w with
      | Some e => mret (Return (Some (ErrWrap (failedOn RunnerTypeDump) e)))
      | None => mret (Next true)
      end
  | None => mret (Next run)
  end.

Definition bindBlock (s : step) (w : iteration) (run : bool) : M operator flow :=
  match bindCond s with
  | Some _ =>
      (if negb run then record None else mret tt);;
      callRun RunnerTypeBind;;
      match bindOut w with
      | inl e => mret (Return (Some (ErrWrap (failedOn RunnerTypeBind) e)))
      | inr b =>
          modify (set_store (λ st, set_bindVars (b ∪ bindVars st) st));;
          mret (Next true)
      end
  | None => mret (Next run)
  end.

Definition testBlock (s : step) (w : iteration) (run : bool) : M operator flow :=
  if testRunner s && negb (String.eqb (testCond s) "") then
    o ← get;
    if skipTest o then
      (if negb run then skipStep else mret tt);;
      mret (Return None)
    else
      (if negb run then record None else mret tt);;
      callRun RunnerTypeTest;;
      match testOut w with
      | Some e => mret (Return (Some (ErrWrap (failedOn RunnerTypeTest) e)))
      | None => mret (Next true)
      end
  else mret (Next run).

Definition stepFn (s : step) (w : iteration) : M operator (option error) :=
  f ← andThen (andThen (andThen (primaryBlock s w) (dumpBlock s w))
                       (bindBlock s w)) (testBlock s w);
  match f with
  | Return e => mret e
  | Next run => if negb run then mret (Some ErrInvalidRunner) else mret None
  end.

(** ** The loop branch of [runInternal] *)

(** How the [for] statement is left: by a [return] in its body; by its
    condition or the [break] at [j >= c]; or by the [break] that follows
    [retrySuccess = true].  The locals the code reads next come along. *)
Inductive loopFlow : Type :=
| LoopReturn (e : error)
| LoopEnd (retrySuccess : bool) (t : string) (j : Z)
| LoopBreak (t : string) (j : Z).

(** [for s.loop.Loop(ctx) { if j >= c { break }; ...; j++ }].  [w j] is
    what the collaborators answer in the pass that starts with the
    counter at [j].  [None]: the fuel ran out. *)
Fixpoint loopFor (fuel : nat) (s : step) (l : Loop) (w : Z → iteration) (c : Z)
    (retrySuccess : bool) (t : string) (j : Z) : M operator (option loopFlow) :=
  match fuel with
  | O => mret None
  | S fuel =>
      if negb (loopOut (w j)) then mret (Some (LoopEnd retrySuccess t j))
      else if c <=? j then mret (Some (LoopEnd retrySuccess t j))
      else
        modify (set_store (set_loopIndex (Some j)));;
        e ← stepFn s (w j);
        match e with
        | Some e => mret (Some (LoopReturn (ErrWrap "loop failed" e)))
        | None =>
            if String.eqb (Until l) "" then
              loopFor fuel s l w c retrySuccess t (j + 1)
            else
              match treeOut (w j) with
              | inl e => mret (Some (LoopReturn (ErrWrap "loop failed on" e)))
              | inr t' =>
                  match untilOut (w j) with
                  | inl e => mret (Some (LoopReturn (ErrWrap "loop failed on" e)))
                  | inr true => mret (Some (LoopBreak t' j))
                  | inr false => loopFor fuel s l w c retrySuccess t' (j + 1)
                  end
              end
        end
  end.

(** The code after the [for] statement. *)
Definition afterLoop (l : Loop) (c : Z) (f : loopFlow) : M operator (option error) :=
  match f with
  | LoopReturn e => mret (Some e)
  | LoopBreak _ _ => mret None
  | LoopEnd retrySuccess t _ =>
      if negb retrySuccess then
        let err := ErrUntilNotTrue (Until l) t in
        modify (set_store (set_loopIndex None));;
        match interval l, minInterval l, maxInterval l with
        | Some _, _, _ => mret (Some (ErrRetryLoop c err))
        | None, Some _, Some _ => mret (Some (ErrRetryLoop c err))
        | None, _, _ => panic
        end
      else mret None
  end.

(** The branch [if s.loop != nil { ... }]; [count] is what [evalCount]
    returns.  The deferred function resets [loopIndex] on every return.
    [None]: the fuel of the loop ran out. *)
Definition runLoop (s : step) (l : Loop) (count : error + Z) (w : Z → iteration)
    : M operator (option (option error)) :=
  let retrySuccess := String.eqb (Until l) "" in
  r ← match count with
      | inl e => mret (Some (Some e))
      | inr c =>
          f ← loopFor (S (Z.to_nat c)) s l w c retrySuccess "" 0;
          match f with
          | None => mret None
          | Some f => e ← afterLoop l c f; mret (Some e)
          end
      end;
  modify (set_store (set_loopIndex None));;
  mret r.

(** The body run for one step: the [if] condition ([condOut] is what
    [evalCond] returns), then the loop or a single call of the step
    function. *)
Definition runStep (s : step) (condOut : error + bool) (count : error + Z)
    (w : Z → iteration) : M operator (option (option error)) :=
  let body : M operator (option (option error)) :=
    match loop s with
    | Some l => runLoop s l count w
    | None => e ← stepFn s (w 0); mret (Some e)
    end in
  if negb (String.eqb (cond s) "") then
    match condOut with
    | inl e => mret (Some (Some e))
    | inr false => skipStep;; mret (Some None)
    | inr true => body
    end
  else body.

(** ** Sharding ([partOperators]) *)

(** [math.Mod(float64(ii), float64(n)) == float64(i)]: a slice index and
    the shard parameters are integers that [float64] represents exactly
    (below 2^53), and [math.Mod] of two such values is the exact
    remainder with the sign of the dividend, [Z.rem]; for [n = 0] it is
    NaN, which equals nothing. *)
Definition modEq (ii n i : Z) : bool :=
  if n =? 0 then false else Z.rem ii n =? i.

(** The [for ii, o := range all] loop, from index [ii] on. *)
Fixpoint partFrom {A} (ii : Z) (all : list A) (n i : Z) : list A :=
  match all with
  | [] => []
  | o :: rest =>
      if modEq ii n i then o :: partFrom (ii + 1) rest n i
      else partFrom (ii + 1) rest n i
  end.

Definition partOperators {A} (ops : list A) (n i : Z) : list A :=
  partFrom 0 ops n i.

End Operator.

Module Grpc.

Import Operator.

(** ** Data model ([grpc.go]) *)

Definition GRPCOp : Type := string.
Definition GRPCOpMessage : GRPCOp := "message".
Definition GRPCOpReceive : GRPCOp := "receive".
Definition GRPCOpClose : GRPCOp := "close".

Definition grpcStoreStatusKey : string := "status".
Definition grpcStoreHeaderKey : string := "headers".
Definition grpcStoreTrailerKey : string := "trailers".
Definition grpcStoreMessageKey : string := "message".
Definition grpcStoreMessagesKey : string := "messages".
Definition grpcStoreResponseKey : string := "res".

(** [metadata.MD] *)
Abbreviation MD := (gmap string (list string)).

(** A proto message on the wire. *)
Definition pmsg : Type := string.

Record grpcMessage : Type := mkMessage {
  op : GRPCOp;
  params : result;
}.

Record grpcRequest : Type := mkRequest {
  service : string;
  method : string;
  headers : MD;
  messages : list grpcMessage;
  timeout : Z;
}.

(** [protoreflect.MethodDescriptor]: what the runner reads of it. *)
Record methodDescriptor : Type := mkMethod {
  FullName : string;
  IsStreamingServer : bool;
  IsStreamingClient : bool;
}.

(** [tls.Config] and the dial options that depend on the runner. *)
Record tlsConfig : Type := mkTLS {
  MinVersion : Z;
  Certificates : list string;
  InsecureSkipVerify : bool;
  RootCAs : option string;
}.

Definition VersionTLS12 : Z := 0x0303.
Definition Second : Z := 1000000000.

Inductive transportCredentials : Type :=
| NewTLS (c : tlsConfig)
| InsecureCredentials.

(** One call [grpc.DialContext(cctx, target, opts...)]: the target, the
    transport credentials among the options, and the timeout of [cctx]
    in nanoseconds. *)
Record dialCall : Type := mkDial {
  dialTarget : string;
  dialCreds : transportCredentials;
  dialTimeout : Z;
}.

(** [*grpc.ClientConn]: a connection remembers the dial that opened it. *)
Record clientConn : Type := mkConn { dialled : dialCall }.

Record grpcRunner : Type := mkRunner {
  name : string;
  target : string;
  tls : option bool;
  cacert : string;
  cert : string;
  key_ : string;
  skipVerify : bool;
  importPaths : list string;
  protos : list string;
  cc : option clientConn;
  refc : option clientConn;
  mds : gmap string methodDescriptor;
}.

Definition set_conn (c r : option clientConn) (x : grpcRunner) : grpcRunner :=
  {| name := name x; target := target x; tls := tls x; cacert := cacert x;
     cert := cert x; key_ := key_ x; skipVerify := skipVerify x;
     importPaths := importPaths x; protos := protos x;
     cc := c; refc := r; mds := mds x |}.

Definition set_mds (m : gmap string methodDescriptor) (x : grpcRunner) : grpcRunner :=
  {| name := name x; target := target x; tls := tls x; cacert := cacert x;
     cert := cert x; key_ := key_ x; skipVerify := skipVerify x;
     importPaths := importPaths x; protos := protos x;
     cc := cc x; refc := refc x; mds := m |}.

(** ** The collaborators *)

(** Pure library functions the runner calls: [tls.X509KeyPair],
    [x509.SystemCertPool], [CertPool.AppendCertsFromPEM], the request
    construction of [setMessage] (expansion, JSON, [protojson.Unmarshal]),
    the response conversion ([protojson.Marshal] then [json.Unmarshal])
    and the two method resolutions. *)
Record library : Type := mkLibrary {
  X509KeyPair : string → string → error + string;
  SystemCertPool : error + string;
  AppendCertsFromPEM : string → string → option string;
  setMessageOut : result → error + pmsg;
  toMap : pmsg → error + result;
  resolveProtosOut : error + gmap string methodDescriptor;
  resolveReflectionOut : error + gmap string methodDescriptor;
}.

(** What the network answers: to the dial, to [cc.Close], to [Invoke]
    (error, response, headers, trailers), to [NewStream], to the
    successive [SendMsg] and [RecvMsg] calls on the stream (a stream
    whose answers are used up reports [io.EOF] on receive and [nil] on
    send), to [CloseSend], [Header] and [Trailer]. *)
Record network : Type := mkNetwork {
  dialOut : option error;
  closeOut : option error;
  invokeOut : option error * pmsg * MD * MD;
  newStreamOut : option error;
  sendOut : list (option error);
  recvOut : list (error + pmsg);
  closeSendOut : option error;
  headerOut : error + MD;
  trailerOut : MD;
}.

Definition set_sendOut (l : list (option error)) (n : network) : network :=
  {| dialOut := dialOut n; closeOut := closeOut n; invokeOut := invokeOut n;
     newStreamOut := newStreamOut n; sendOut := l; recvOut := recvOut n;
     closeSendOut := closeSendOut n; headerOut := headerOut n;
     trailerOut := trailerOut n |}.

Definition set_recvOut (l : list (error + pmsg)) (n : network) : network :=
  {| dialOut := dialOut n; closeOut := closeOut n; invokeOut := invokeOut n;
     newStreamOut := newStreamOut n; sendOut := sendOut n; recvOut := l;
     closeSendOut := closeSendOut n; headerOut := headerOut n;
     trailerOut := trailerOut n |}.

(** The calls the runner makes on the connection and on the stream. *)
Inductive event : Type :=
| EvDial (d : dialCall)
| EvConnClose
| EvInvoke (m : string) (req : pmsg)
| EvNewStream (m : string)
| EvSendMsg (req : pmsg)
| EvRecvMsg
| EvCloseSend.

(** The state a [Run] works on: the runner, its operator, the network's
    remaining answers and the calls made so far. *)
Record world : Type := mkWorld {
  rnr : grpcRunner;
  oper : operator;
  net : network;
  events : list event;
}.

Definition set_rnr (f : grpcRunner → grpcRunner) (w : world) : world :=
  {| rnr := f (rnr w); oper := oper w; net := net w; events := events w |}.
Definition set_net (f : network → network) (w : world) : world :=
  {| rnr := rnr w; oper := oper w; net := f (net w); events := events w |}.
Definition emit (e : event) (w : world) : world :=
  {| rnr := rnr w; oper := oper w; net := net w; events := events w ++ [e] |}.

(** [rnr.operator.record(v)] *)
Definition operatorRecord (v : result) : M world unit := λ w,
  match record (Some v) (oper w) with
  | Ret _ o => Ret tt {| rnr := rnr w; oper := o; net := net w; events := events w |}
  | Panic => Panic
  end.

(** ** Library functions with a definite meaning *)

(** [strings.HasSuffix]: [len(s) >= len(suffix) && s[len(s)-len(suffix):] == suffix] *)
Definition HasSuffix (s suffix : string) : bool :=
  (String.length suffix <=? String.length s)%nat &&
  String.eqb (String.substring (String.length s - String.length suffix)
                        (String.length suffix) s) suffix.

(** [errors.Is(err, context.Canceled)] and [errors.Is(err, io.EOF)] *)
Fixpoint isCanceled (e : error) : bool :=
  match e with
  | ErrCanceled => true
  | ErrWrap _ e => isCanceled e
  | _ => false
  end.

Fixpoint isEOF (e : error) : bool :=
  match e with
  | ErrEOF => true
  | ErrWrap _ e => isEOF e
  | _ => false
  end.

Definition errIs (f : error → bool) (err : option error) : bool :=
  match err with Some e => f e | None => false end.

(** [status.Status] and [status.FromError].  A [nil] error is the OK
    status; an error that carries a gRPC status yields it; for any other
    error [ok] is false (and the runner does not read the status). *)
Record status : Type := mkStatus { Code : Z; Message : string }.

Definition OK : Z := 0.
Definition Unknown : Z := 2.

Definition FromError (err : option error) : status * bool :=
  match err with
  | None => (mkStatus OK "", true)
  | Some (ErrStatus c m) => (mkStatus c m, true)
  | Some _ => (mkStatus Unknown "", false)
  end.

Section Runner.

Context (lib : library).

(** ** Connection establishment (the head of [Run]) *)

Definition useTLS (x : grpcRunner) : bool :=
  let useTLS := true in
  let useTLS := if HasSuffix (target x) ":80" then false else useTLS in
  match tls x with
  | Some b => b
  | None => useTLS
  end.

(** The transport credentials appended to the dial options, or the
    error returned before dialling. *)
Definition credentialsOf (x : grpcRunner) : error + transportCredentials :=
  if useTLS x then
    let tlsc := mkTLS VersionTLS12 [] false None in
    let withCert : error + tlsConfig :=
      if negb (String.length (cert x) =? 0)%nat then
        match X509KeyPair lib (cert x) (key_ x) with
        | inl e => inl e
        | inr certificate =>
            inr (mkTLS (MinVersion tlsc) [certificate]
                       (InsecureSkipVerify tlsc) (RootCAs tlsc))
        end
      else inr tlsc in
    match withCert with
    | inl e => inl e
    | inr tlsc =>
        if skipVerify x then
          inr (NewTLS (mkTLS (MinVersion tlsc) (Certificates tlsc) true (RootCAs tlsc)))
        else if negb (String.length (cacert x) =? 0)%nat then
          let certpool := match SystemCertPool lib with
                          | inl _ => ""
                          | inr p => p
                          end in
          match AppendCertsFromPEM lib certpool (cacert x) with
          | None => inl (ErrMsg "failed to append cacert")
          | Some pool =>
              inr (NewTLS (mkTLS (MinVersion tlsc) (Certificates tlsc)
                                 (InsecureSkipVerify tlsc) (Some pool)))
          end
        else inr (NewTLS tlsc)
    end
  else inr InsecureCredentials.

(** [if rnr.cc == nil { ... }] *)
Definition connect : M world (option error) :=
  w ← get;
  match cc (rnr w) with
  | Some _ => mret None
  | None =>
      match credentialsOf (rnr w) with
      | inl e => mret (Some e)
      | inr creds =>
          let d := mkDial (target (rnr w)) creds (10 * Second) in
          modify (emit (EvDial d));;
          match dialOut (net w) with
          | Some e => mret (Some e)
          | None =>
              modify (set_rnr (λ x, set_conn (Some (mkConn d)) (refc x) x));;
              mret None
          end
      end
  end.

(** ** Stream and connection primitives *)

Definition SendMsg (req : pmsg) : M world (option error) :=
  w ← get;
  modify (emit (EvSendMsg req));;
  modify (set_net (set_sendOut (tail (sendOut (net w)))));;
  mret (match sendOut (net w) with e :: _ => e | [] => None end).

(** One [RecvMsg] call is made and [rest] are the answers left. *)
Definition recvNext (rest : list (error + pmsg)) : M world unit :=
  modify (emit EvRecvMsg);;
  modify (set_net (set_recvOut rest)).

Definition answer (r : error + pmsg) : option error * pmsg :=
  match r with
  | inl e => (Some e, "")
  | inr m => (None, m)
  end.

Definition RecvMsg : M world (option error * pmsg) :=
  w ← get;
  match recvOut (net w) with
  | [] => recvNext [];; mret (Some ErrEOF, "")
  | r :: rest => recvNext rest;; mret (answer r)
  end.

Definition CloseSend : M world (option error) :=
  w ← get;
  modify (emit EvCloseSend);;
  mret (closeSendOut (net w)).

Definition NewStream (md : methodDescriptor) : M world (option error) :=
  w ← get;
  modify (emit (EvNewStream (FullName md)));;
  mret (newStreamOut (net w)).

Definition record_res (d : result) : M world unit :=
  operatorRecord (<[grpcStoreResponseKey := VMap d]> ∅).

(** The initial [d] of the streaming modes. *)
Definition d0 : result :=
  <[grpcStoreMessageKey := VNil]>
    (<[grpcStoreTrailerKey := VMD ∅]> (<[grpcStoreHeaderKey := VMD ∅]> ∅)).

(** ** Unary *)

Definition invokeUnary (md : methodDescriptor) (r : grpcRequest) : M world (option error) :=
  match messages r with
  | [m] =>
      match setMessageOut lib (params m) with
      | inl e => mret (Some e)
      | inr req =>
          w ← get;
          let '(err, res, resHeaders, resTrailers) := invokeOut (net w) in
          modify (emit (EvInvoke (FullName md) req));;
          let '(stat, ok) := FromError err in
          if negb ok then mret err
          else
            let d : result :=
              <[grpcStoreMessageKey := VNil]>
                (<[grpcStoreTrailerKey := VMD resTrailers]>
                  (<[grpcStoreHeaderKey := VMD resHeaders]>
                    (<[grpcStoreStatusKey := VInt (Code stat)]> ∅))) in
            if Code stat =? OK then
              match toMap lib res with
              | inl e => mret (Some e)
              | inr msg =>
                  let d := <[grpcStoreMessageKey := VMap msg]> d in
                  let d := <[grpcStoreMessagesKey := VList [VMap msg]]> d in
                  record_res d;;
                  mret None
              end
            else
              let d := <[grpcStoreMessageKey := VStr (Message stat)]> d in
              record_res d;;
              mret None
      end
  | _ => mret (Some (ErrMsg "unary RPC message should be 1"))
  end.

(** The tail shared by the server- and client-streaming modes: headers
    when available, trailers, then the one [record]. *)
Definition finishStream (d : result) (messages : list value) : M world (option error) :=
  w ← get;
  let d := <[grpcStoreMessagesKey := VList messages]> d in
  let d := match headerOut (net w) with
           | inr h => <[grpcStoreHeaderKey := VMD h]> d
           | inl _ => d
           end in
  let d := <[grpcStoreTrailerKey := VMD (trailerOut (net w))]> d in
  record_res d;;
  mret None.

(** ** Client streaming *)

(** The [for _, m := range r.messages] loop.  Both [break]s after
    [SendMsg] leave the [switch] only, and no other use is made of the
    error: whatever [SendMsg] returns, the loop goes on.  [Some e]: the
    function returns [e]. *)
Fixpoint clientSendLoop (ms : list grpcMessage) : M world (option error) :=
  match ms with
  | [] => mret None
  | m :: ms =>
      if String.eqb (op m) GRPCOpMessage then
        match setMessageOut lib (params m) with
        | inl e => mret (Some e)
        | inr req =>
            SendMsg req;;
            clientSendLoop ms
        end
      else mret (Some (ErrInvalidOp (op m)))
  end.

Definition invokeClientStreaming (md : methodDescriptor) (r : grpcRequest)
    : M world (option error) :=
  e ← NewStream md;
  match e with
  | Some e => mret (Some e)
  | None =>
      e ← clientSendLoop (messages r);
      match e with
      | Some e => mret (Some e)
      | None =>
          e ← CloseSend;
          match e with
          | Some e => mret (Some e)
          | None =>
              '(err, res) ← RecvMsg;
              let '(stat, ok) := FromError err in
              if negb ok then mret err
              else
                let d := <[grpcStoreStatusKey := VInt (Code stat)]> d0 in
                if Code stat =? OK then
                  match toMap lib res with
                  | inl e => mret (Some e)
                  | inr msg => finishStream (<[grpcStoreMessageKey := VMap msg]> d) [VMap msg]
                  end
                else finishStream (<[grpcStoreMessageKey := VStr (Message stat)]> d) []
          end
      end
  end.

(** ** Server streaming *)

(** The block, repeated in every streaming loop, that stores a reply
    with status [stat]: an OK message is converted and appended to
    [messages], any other status leaves its text in [d["message"]]. *)
Definition storeReply (stat : status) (res : pmsg) (d : result) (messages : list value)
    : error + result * list value :=
  if Code stat =? OK then
    match toMap lib res with
    | inl e => inl e
    | inr msg => inr (<[grpcStoreMessageKey := VMap msg]> d, messages ++ [VMap msg])
    end
  else inr (<[grpcStoreMessageKey := VStr (Message stat)]> d, messages).

(** [for err == nil { err = stream.RecvMsg(res); ... }]; [rs] are the
    answers the stream still holds, and a stream without answers left
    reports [io.EOF], which leaves the loop.  [inl err]: the function
    returns [err]. *)
Fixpoint serverRecvLoop (rs : list (error + pmsg)) (d : result) (messages : list value)
    : M world (option error + result * list value) :=
  match rs with
  | [] => recvNext [];; mret (inr (d, messages))
  | r :: rs =>
      recvNext rs;;
      let '(err, res) := answer r in
      if errIs isCanceled err then mret (inr (d, messages))
      else if errIs isEOF err then mret (inr (d, messages))
      else
        let '(stat, ok) := FromError err in
        if negb ok then mret (inl err)
        else
          let d := <[grpcStoreStatusKey := VInt (Code stat)]> d in
          match storeReply stat res d messages with
          | inl e => mret (inl (Some e))
          | inr (d, messages) =>
              match err with
              | None => serverRecvLoop rs d messages
              | Some _ => mret (inr (d, messages))
              end
          end
  end.

Definition invokeServerStreaming (md : methodDescriptor) (r : grpcRequest)
    : M world (option error) :=
  match messages r with
  | [m] =>
      match setMessageOut lib (params m) with
      | inl e => mret (Some e)
      | inr req =>
          e ← NewStream md;
          match e with
          | Some e => mret (Some e)
          | None =>
              e ← SendMsg req;
              match e with
              | Some e => mret (Some e)
              | None =>
                  w ← get;
                  x ← serverRecvLoop (recvOut (net w)) d0 [];
                  match x with
                  | inl e => mret e
                  | inr (d, messages) => finishStream d messages
                  end
              end
          end
      end
  | _ => mret (Some (ErrMsg "server streaming RPC message should be 1"))
  end.

(** ** Bidirectional streaming *)

(** How the labelled loop [L] is left: by [return err], or by its end or
    a [break L], with the locals [err], [clientClose], [d], [messages]. *)
Inductive opsFlow : Type :=
| OpsReturn (e : option error)
| OpsExit (err : option error) (clientClose : bool) (d : result) (messages : list value).

Fixpoint bidiOps (ms : list grpcMessage) (err : option error) (d : result)
    (messages : list value) : M world opsFlow :=
  match ms with
  | [] => mret (OpsExit err false d messages)
  | m :: ms =>
      if String.eqb (op m) GRPCOpMessage then
        match setMessageOut lib (params m) with
        | inl e => mret (OpsReturn (Some e))
        | inr req =>
            err ← SendMsg req;
            if errIs isCanceled err then mret (OpsExit err false d messages)
            else if errIs isEOF err then mret (OpsExit err false d messages)
            else bidiOps ms err d messages
        end
      else if String.eqb (op m) GRPCOpReceive then
        '(rerr, res) ← RecvMsg;
        if errIs isCanceled rerr then mret (OpsExit err false d messages)
        else if errIs isEOF rerr then mret (OpsExit err false d messages)
        else
          let '(stat, ok) := FromError rerr in
          if negb ok then mret (OpsReturn rerr)
          else
            w ← get;
            let d := <[grpcStoreStatusKey := VInt (Code stat)]> d in
            let d := match headerOut (net w) with
                     | inr h => <[grpcStoreHeaderKey := VMD h]> d
                     | inl _ => d
                     end in
            match storeReply stat res d messages with
            | inl e => mret (OpsReturn (Some e))
            | inr (d, messages) => bidiOps ms err d messages
            end
      else if String.eqb (op m) GRPCOpClose then
        err ← CloseSend;
        mret (OpsExit err true d messages)
      else mret (OpsReturn (Some (ErrInvalidOp (op m))))
  end.

(** The drain after a client close; [rs] are the answers the stream
    still holds.  [Some e]: the function returns [e]. *)
Fixpoint drainClosed (rs : list (error + pmsg)) : M world (option error) :=
  match rs with
  | [] => recvNext [];; mret None
  | r :: rs =>
      recvNext rs;;
      match fst (answer r) with
      | Some e =>
          if isCanceled e then mret None
          else if isEOF e then mret None
          else mret (Some e)
      | None =>
          e ← CloseSend;
          match e with
          | Some e => mret (Some e)
          | None => drainClosed rs
          end
      end
  end.

(** The drain when the client did not close and no send failed. *)
Fixpoint drainOpen (rs : list (error + pmsg)) (d : result) (messages : list value)
    : M world (option error + result * list value) :=
  match rs with
  | [] => recvNext [];; mret (inr (d, messages))
  | r :: rs =>
      recvNext rs;;
      let '(err, res) := answer r in
      if errIs isCanceled err then mret (inr (d, messages))
      else if errIs isEOF err then mret (inr (d, messages))
      else
        let '(stat, ok) := FromError err in
        if negb ok then mret (inl err)
        else
          let d := <[grpcStoreStatusKey := VInt (Code stat)]> d in
          match storeReply stat res d messages with
          | inl e => mret (inl (Some e))
          | inr (d, messages) => drainOpen rs d messages
          end
  end.

Definition connClose : M world (option error) :=
  w ← get;
  modify (emit EvConnClose);;
  mret (closeOut (net w)).

Definition invokeBidiStreaming (md : methodDescriptor) (r : grpcRequest)
    : M world (option error) :=
  if 0 <? timeout r then
    mret (Some (ErrMsg "unsupported timeout: for bidirectional streaming RPC"))
  else
    e ← NewStream md;
    match e with
    | Some e => mret (Some e)
    | None =>
        f ← bidiOps (messages r) None d0 [];
        match f with
        | OpsReturn e => mret e
        | OpsExit err clientClose d messages =>
            let '(stat, ok) := FromError err in
            if negb ok then mret err
            else
              let d := if negb (Code stat =? OK) then
                         <[grpcStoreMessageKey := VStr (Message stat)]>
                           (<[grpcStoreStatusKey := VInt (Code stat)]> d)
                       else d in
              w ← get;
              x ← (if clientClose then
                     e ← drainClosed (recvOut (net w));
                     match e with
                     | Some e => mret (inl (Some e))
                     | None => mret (inr (d, messages))
                     end
                   else
                     match err with
                     | None => drainOpen (recvOut (net w)) d messages
                     | Some _ => mret (inr (d, messages))
                     end);
              match x with
              | inl e => mret e
              | inr (d, messages) =>
                  e ← connClose;
                  match e with
                  | Some e => mret (Some e)
                  | None =>
                      modify (set_rnr (set_conn None None));;
                      w ← get;
                      let d := <[grpcStoreMessagesKey := VList messages]> d in
                      match d !! grpcStoreHeaderKey with
                      | Some (VMD h0) =>
                          let d := match headerOut (net w) with
                                   | inr h =>
                                       if (size h0 =? 0)%nat
                                       then <[grpcStoreHeaderKey := VMD h]> d
                                       else d
                                   | inl _ => d
                                   end in
                          let t := trailerOut (net w) in
                          let d := <[grpcStoreTrailerKey := VMD t]> d in
                          record_res d;;
                          mret None
                      | _ => panic
                      end
                  end
              end
        end
    end.

(** ** [Run] *)

Definition resolve (found : error + gmap string methodDescriptor) : M world (option error) :=
  match found with
  | inl e => mret (Some e)
  | inr m => modify (set_rnr (λ x, set_mds (m ∪ mds x) x));; mret None
  end.

Definition dispatch (md : methodDescriptor) (r : grpcRequest) : M world (option error) :=
  match IsStreamingServer md, IsStreamingClient md with
  | false, false => invokeUnary md r
  | true, false => invokeServerStreaming md r
  | false, true => invokeClientStreaming md r
  | true, true => invokeBidiStreaming md r
  end.

(** [Run] once the connection is there. *)
Definition runConnected (r : grpcRequest) : M world (option error) :=
  modify (set_rnr (λ x, match refc x with
                        | None => set_conn (cc x) (cc x) x
                        | Some _ => x
                        end));;
  w ← get;
  e ← (if (0 <? length (importPaths (rnr w)))%nat || (0 <? length (protos (rnr w)))%nat
       then resolve (resolveProtosOut lib) else mret None);
  match e with
  | Some e => mret (Some e)
  | None =>
      w ← get;
      e ← (if (size (mds (rnr w)) =? 0)%nat
           then resolve (resolveReflectionOut lib) else mret None);
      match e with
      | Some e => mret (Some e)
      | None =>
          w ← get;
          let key := service r +:+ "/" +:+ method r in
          match mds (rnr w) !! key with
          | None => mret (Some (ErrMsg "cannot find method"))
          | Some md => dispatch md r
          end
      end
  end.

Definition Run (r : grpcRequest) : M world (option error) :=
  e ← connect;
  match e with
  | Some e => mret (Some e)
  | None => runConnected r
  end.

End Runner.

End Grpc.

(** * Vocabulary of the properties *)

Import Operator.

(** The slot [record] and [skipStep] write is there to be written: in
    list mode a later iteration needs a previous slot to drop; in map
    mode the steps consulted for their keys must exist. *)
Definition canRecord (o : operator) : bool :=
  let st := store_ o in
  if useMap o then
    let base :=
      if inLaterIteration st then
        match stepAt o (Z.of_nat (size (stepMap st)) - 1) with
        | Some s => Some (delete (key s) (stepMap st))
        | None => None
        end
      else Some (stepMap st) in
    match base with
    | Some m => notNil (stepAt o (Z.of_nat (size m)))
    | None => false
    end
  else
    if inLaterIteration st then notNil (dropLast (steps_ st)) else true.

(** The mapping most recently stored: the last element of [steps] in
    list mode, the entry of some step's key in map mode. *)
Definition storedLast (o : operator) (m : result) : Prop :=
  if useMap o then ∃ s, s ∈ steps o ∧ stepMap (store_ o) !! key s = Some m
  else last (steps_ (store_ o)) = Some m.

(** The common tail of [record] and [skipStep]. *)
Definition write (m : result) : M operator unit :=
  o ← get;
  if useMap o then recordAsMapped m else recordAsListed m.

Definition sameSlots (a b : store) : Prop :=
  steps_ a = steps_ b ∧ stepMap a = stepMap b.

(** [o'] holds the slots that one write of [m] leaves from [o]. *)
Definition wrote (o : operator) (m : result) (o' : operator) : Prop :=
  ∃ o1, write m o = Ret tt o1 ∧ sameSlots (store_ o') (store_ o1).

(** The runners of a step, in the order the step function reaches them. *)
Definition configured (s : step) : list runnerType :=
  option_list (primaryType s) ++
  (if notNil (dumpRequest s) then [RunnerTypeDump] else []) ++
  (if notNil (bindCond s) then [RunnerTypeBind] else []) ++
  (if testRunner s && negb (String.eqb (testCond s) "") then [RunnerTypeTest] else []).

Definition callKind (c : call) : runnerType :=
  match c with CallRun k _ => k end.
Definition callSeen (c : call) : store :=
  match c with CallRun _ st => st end.

Definition runTrue : result := {[ storeStepRunKey := VBool true ]}.
Definition runFalse : result := {[ storeStepRunKey := VBool false ]}.

(** What a step function that returns [nil] has stored. *)
Definition stepOutput (s : step) (skip : bool) (w : iteration) : result :=
  match primaryType s, primaryOut w with
  | Some _, RunOk v => <[storeStepRunKey := VBool true]> (default ∅ v)
  | _, _ =>
      if notNil (dumpRequest s) || notNil (bindCond s) then runTrue
      else if skip then runFalse else runTrue
  end.

(** The fields of the operator that a step function leaves alone. *)
Definition sameFrame (o o' : operator) : Prop :=
  steps o' = steps o ∧ useMap o' = useMap o ∧ skipTest o' = skipTest o ∧
  loopIndex (store_ o') = loopIndex (store_ o).

Definition isSide (k : runnerType) : bool :=
  match k with
  | RunnerTypeDump | RunnerTypeBind | RunnerTypeTest => true
  | _ => false
  end.

(** The step about to be recorded in map mode: the one at index
    [len(stepMap)]. *)
Definition currentStep (o : operator) : option step :=
  stepAt o (Z.of_nat (size (stepMap (store_ o)))).

(** In map mode the current step exists and its key is still free. *)
Definition ready (o : operator) : Prop :=
  useMap o = true →
  ∃ s, currentStep o = Some s ∧ stepMap (store_ o) !! key s = None.

(** [o'] holds the slots of [o] and exactly one more, with [m] in it. *)
Definition oneMoreSlot (o : operator) (m : result) (o' : operator) : Prop :=
  if useMap o then
    ∃ s, currentStep o = Some s ∧
         stepMap (store_ o') = <[key s := m]> (stepMap (store_ o)) ∧
         steps_ (store_ o') = steps_ (store_ o)
  else
    steps_ (store_ o') = steps_ (store_ o) ++ [m] ∧
    stepMap (store_ o') = stepMap (store_ o).

(** The mapping that pass [j] stores when its step function returns [nil]. *)
Definition passOutput (s : step) (w : Z → iteration) (o0 : operator) (j : Z) : result :=
  stepOutput s (skipTest o0) (w j).

(** The runner calls of [j] complete passes. *)
Definition passCalls (s : step) (j : Z) : list runnerType :=
  mjoin (replicate (Z.to_nat j) (configured s)).

(** What holds of the operator when the counter is [j]: no slot was
    added yet when [j = 0]; otherwise exactly one, holding the output of
    pass [j - 1]. *)
Definition loopInv (s : step) (w : Z → iteration) (o0 : operator) (j : Z) (o : operator)
    : Prop :=
  steps o = steps o0 ∧ useMap o = useMap o0 ∧ skipTest o = skipTest o0 ∧
  (if j =? 0 then sameSlots (store_ o) (store_ o0)
   else oneMoreSlot o0 (passOutput s w o0 (j - 1)) o) ∧
  ∃ cs, calls o = calls o0 ++ cs ∧
        (skipTest o0 = false → callKind <$> cs = passCalls s j).

(** [reqs] are the requests built from the messages [ms], all of which
    carry the op [message]. *)
Definition allMessages (lib : Grpc.library) (ms : list Grpc.grpcMessage)
    (reqs : list Grpc.pmsg) : Prop :=
  Forall2 (λ m req, Grpc.op m = Grpc.GRPCOpMessage ∧ Grpc.setMessageOut lib (Grpc.params m) = inr req)
          ms reqs.

(** ** Concrete inputs *)

Module Examples.

Import Grpc.

(** A count-only loop around an [exec] step. *)
Definition exLoop : Loop := mkLoop "3" "" (Some 0) None None.

Definition exStep : step :=
  mkStep "0" "exec" "" "" (Some exLoop)
         None None None None (Some (VStr "echo hello!!")) None
         false "" None None.

Definition exOutput : result :=
  <["stdout" := VStr "hello!!"]> (<["exit_code" := VInt 0]> ∅).

Definition exIteration : iteration :=
  mkIteration (RunOk (Some exOutput)) None (inr ∅) None true (inr "") (inr false).

(** A step with a test only. *)
Definition exTestStep : step :=
  mkStep "check" "" "" "" None None None None None None None
         true "current.res.status == 0" None None.

(** A list-mode operator with one step, and a map-mode operator with
    two steps of which the first has been recorded. *)
Definition exOperator : operator :=
  mkOperator [exStep] (mkStore [] ∅ ∅ None) false false [].

Definition exSkipOperator : operator :=
  mkOperator [exTestStep] (mkStore [] ∅ ∅ None) false true [].

Definition exMapOperator : operator :=
  mkOperator [exTestStep; exStep]
             (mkStore [] (<["check" := runTrue]> ∅) ∅ None) true false [].

(** A gRPC runner, connected or not, and its collaborators. *)
Definition exLibrary : library :=
  mkLibrary (λ _ _, inr "certificate") (inr "system pool") (λ pool _, Some pool)
            (λ _, inr "request") (λ _, inr (<["msg" := VStr "hi"]> ∅))
            (inr ∅) (inr ∅).

(** The same, with a response conversion that fails. *)
Definition exLibraryNoJSON : library :=
  mkLibrary (λ _ _, inr "certificate") (inr "system pool") (λ pool _, Some pool)
            (λ _, inr "request") (λ _, inl (ErrMsg "proto: cannot marshal response"))
            (inr ∅) (inr ∅).

Definition exUnary : methodDescriptor := mkMethod "pkg.Svc.Echo" false false.
Definition exClient : methodDescriptor := mkMethod "pkg.Svc.Upload" false true.
Definition exBidi : methodDescriptor := mkMethod "pkg.Svc.Chat" true true.

Definition exRunner (conn : option clientConn) : grpcRunner :=
  mkRunner "greq" "localhost:8080" None "" "" "" false [] [] conn conn ∅.

Definition exConn : clientConn :=
  mkConn (mkDial "localhost:8080" InsecureCredentials 10000000000).

Definition exNetwork : network :=
  mkNetwork None None (None, "response", ∅, ∅) None [] [inr "response"] None
            (inr ∅) ∅.

Definition exWorld : world :=
  mkWorld (exRunner (Some exConn)) exOperator exNetwork [].

Definition exFreshWorld : world :=
  mkWorld (exRunner None) exOperator exNetwork [].

Definition exMessage : grpcMessage := mkMessage GRPCOpMessage ∅.

Definition exUnaryRequest : grpcRequest :=
  mkRequest "pkg.Svc" "Echo" ∅ [exMessage] 0.

Definition exCloseRequest : grpcRequest :=
  mkRequest "pkg.Svc" "Upload" ∅ [exMessage; mkMessage GRPCOpClose ∅] 0.

Definition exUploadRequest : grpcRequest :=
  mkRequest "pkg.Svc" "Upload" ∅ [exMessage; exMessage] 0.

Definition exChatRequest : grpcRequest :=
  mkRequest "pkg.Svc" "Chat" ∅
            [exMessage; mkMessage GRPCOpReceive ∅; mkMessage GRPCOpClose ∅] 0.

(** The world the bidi invocation leaves. *)
Definition exWorldAfterChat : world :=
  match dispatch exLibrary exBidi exChatRequest exWorld with
  | Ret _ w => w
  | Panic => exWorld
  end.

End Examples.

(** * Properties *)

(** ** Recording *)

Ltac go_unfold :=
  unfold mbind, M_bind, mret, M_ret, get, modify, panic in *.

Lemma stepAt_elem o i s : stepAt o i = Some s → s ∈ steps o.
Proof.
  unfold stepAt. destruct (i <? 0); [done|].
  intros H. by eapply list_elem_of_lookup_2.
Qed.

Lemma recordAsListed_spec o v :
  useMap o = false → canRecord o = true →
  ∃ o', recordAsListed v o = Ret tt o' ∧ useMap o' = false ∧
        last (steps_ (store_ o')) = Some v.
Proof.
  intros Hm Hc. unfold canRecord in Hc. rewrite Hm in Hc.
  unfold recordAsListed. go_unfold.
  destruct (inLaterIteration (store_ o)).
  - destruct (dropLast (steps_ (store_ o))) as [l|]; [|done].
    eexists. split; [reflexivity|]. cbn. split; [done|]. apply last_snoc.
  - eexists. split; [reflexivity|]. cbn. split; [done|]. apply last_snoc.
Qed.

Lemma recordAsMapped_spec o v :
  useMap o = true → canRecord o = true →
  ∃ o' s, recordAsMapped v o = Ret tt o' ∧ useMap o' = true ∧
          steps o' = steps o ∧ s ∈ steps o ∧
          stepMap (store_ o') !! key s = Some v.
Proof.
  intros Hm Hc. unfold canRecord in Hc. rewrite Hm in Hc.
  unfold recordAsMapped. go_unfold.
  destruct (inLaterIteration (store_ o)).
  - destruct (stepAt o _) as [s0|]; [|done]. cbn in *.
    unfold stepAt in *. cbn in *.
    destruct (_ <? 0); [done|].
    destruct (steps o !! _) as [s|] eqn:Hs; [|done].
    eexists _, s. split; [reflexivity|]. cbn.
    repeat split; try done.
    + by eapply list_elem_of_lookup_2.
    + apply lookup_insert_eq.
  - cbn in *. destruct (stepAt o _) as [s|] eqn:Hs; [|done].
    eexists _, s. split; [reflexivity|]. cbn.
    repeat split; try done.
    + by eapply stepAt_elem.
    + apply lookup_insert_eq.
Qed.

Lemma stored_after o v :
  canRecord o = true →
  ∃ o', write v o = Ret tt o' ∧ storedLast o' v.
Proof.
  intros Hc. unfold write. go_unfold. unfold storedLast.
  destruct (useMap o) eqn:Hm.
  - destruct (recordAsMapped_spec o v Hm Hc) as (o' & s & -> & Hm' & Hst & Hin & Hl).
    eexists. split; [done|]. rewrite Hm'. exists s. by rewrite Hst.
  - destruct (recordAsListed_spec o v Hm Hc) as (o' & -> & Hm' & Hl).
    eexists. split; [done|]. by rewrite Hm'.
Qed.

Lemma record_panics o v : canRecord o = false → record v o = Panic.
Proof.
  unfold canRecord, record, recordAsMapped, recordAsListed. go_unfold.
  destruct (useMap o), (inLaterIteration (store_ o)); cbn.
  - destruct (stepAt o _); [|done]. cbn. by destruct (stepAt _ _).
  - by destruct (stepAt o _).
  - by destruct (dropLast _).
  - done.
Qed.

(** C2.  Whenever the slot can be written, [record(v)] stores a mapping
    with [run = true] that keeps every other entry of [v] (the empty
    mapping for a nil [v]), and [skipStep()] stores exactly
    [{run: false}]; in list mode and in map mode alike. *)
Theorem record_and_skipStep_set_run (o : operator) (v : option result) :
  canRecord o = true →
  (∃ o' m, record v o = Ret tt o' ∧ storedLast o' m ∧
           m !! storeStepRunKey = Some (VBool true) ∧
           ∀ k, k ≠ storeStepRunKey → m !! k = default ∅ v !! k) ∧
  (∃ o', skipStep o = Ret tt o' ∧
         storedLast o' {[ storeStepRunKey := VBool false ]}).
Proof.
  intros Hc. split.
  - destruct (stored_after o (<[storeStepRunKey := VBool true]> (default ∅ v)) Hc)
      as (o' & Hr & Hs).
    exists o', (<[storeStepRunKey := VBool true]> (default ∅ v)).
    split; [|split; [done|split]].
    + unfold record. destruct v; exact Hr.
    + apply lookup_insert_eq.
    + intros k Hk. by rewrite lookup_insert_ne.
  - destruct (stored_after o {[ storeStepRunKey := VBool false ]} Hc) as (o' & Hr & Hs).
    exists o'. split; [exact Hr | done].
Qed.

(** ** The step function *)

Lemma write_frame m o o1 :
  write m o = Ret tt o1 →
  sameFrame o o1 ∧ calls o1 = calls o ∧ bindVars (store_ o1) = bindVars (store_ o).
Proof.
  unfold write, recordAsMapped, recordAsListed, sameFrame. go_unfold.
  destruct (useMap o) eqn:Hm, (inLaterIteration (store_ o)); cbn.
  - destruct (stepAt o _); [|done]. cbn. destruct (stepAt _ _); [|done].
    intros [= <-]. by cbn.
  - destruct (stepAt o _); [|done]. intros [= <-]. by cbn.
  - destruct (dropLast _); [|done]. intros [= <-]. by cbn.
  - intros [= <-]. by cbn.
Qed.

Lemma write_total m o :
  canRecord o = true → ∃ o1, write m o = Ret tt o1.
Proof.
  intros Hc. destruct (stored_after o m Hc) as (o' & H & _). by exists o'.
Qed.

Lemma record_write v :
  record v = write (<[storeStepRunKey := VBool true]> (default ∅ v)).
Proof. by destruct v. Qed.

Lemma skipStep_write : skipStep = write runFalse.
Proof. done. Qed.

Lemma write_log_call m c o :
  write m (log_call c o) =
  match write m o with
  | Ret _ o1 => Ret tt (log_call c o1)
  | Panic => Panic
  end.
Proof.
  unfold write, recordAsMapped, recordAsListed. go_unfold. cbn.
  unfold stepAt. cbn.
  repeat (case_match; simplify_eq/=; try done).
Qed.

Ltac use_write Hc :=
  rewrite ?record_write, ?skipStep_write, ?write_log_call;
  repeat match goal with
  | |- context [write ?m ?o] =>
      let o1 := fresh "o1" in
      let Hw := fresh "Hw" in
      let Hf := fresh "Hf" in
      let Hcs := fresh "Hcs" in
      let Hst := fresh "Hst" in
      destruct (write_total m o Hc) as [o1 Hw];
      destruct (write_frame _ _ _ Hw) as ((Hst & ? & Hf & ?) & Hcs & ?);
      rewrite Hw; cbn; rewrite ?Hf
  end.

Ltac next Hc x :=
  lazymatch goal with
  | |- context [x] => destruct x; cbn; use_write Hc
  | |- _ => idtac
  end.

Lemma primaryType_not_side s k : primaryType s = Some k → isSide k = false.
Proof. unfold primaryType. repeat case_match; by intros [= <-]. Qed.

Ltac side_seen Hin :=
  repeat (apply elem_of_cons in Hin as [->|Hin]);
  try (by apply elem_of_nil in Hin);
  cbn; intros; try discriminate; try congruence;
  try (eexists _, _; split; [eassumption|split; [done|split; [done|intros; first [reflexivity|congruence]]]]).

Ltac step_done :=
  eexists _, _, _; split; [reflexivity|]; cbn;
  split; [unfold sameFrame; cbn; try done; by repeat split; congruence|];
  split; [cbn; try match goal with H : calls _ = calls _ |- _ => rewrite H end;
          rewrite <- ?app_assoc; cbn; first [reflexivity | symmetry; apply app_nil_r]|];
  split; [by eexists|];
  split; [first [ by intros [=] | intros _ ?; first [congruence|reflexivity] ]|];
  split; [first [ by intros [=] | intros _; eexists; split; [eassumption|done] ]|];
  split; [first [ by left | right; eexists _, _; split; [eassumption|done] ]|];
  let c := fresh "c" in let Hin := fresh "Hin" in
  intros c Hin; side_seen Hin.

Lemma stepFn_spec s w o :
  canRecord o = true →
  ∃ e o' cs, stepFn s w o = Ret e o' ∧ sameFrame o o' ∧ calls o' = calls o ++ cs ∧
    callKind <$> cs `prefix_of` configured s ∧
    (e = None → skipTest o = false → callKind <$> cs = configured s) ∧
    (e = None → wrote o (stepOutput s (skipTest o) w) o') ∧
    (sameSlots (store_ o) (store_ o') ∨ ∃ m, wrote o m o') ∧
    (∀ c, c ∈ cs → isSide (callKind c) = true →
       ∃ m o1, write m o = Ret tt o1 ∧ sameSlots (callSeen c) (store_ o1) ∧
               sameSlots (store_ o') (store_ o1) ∧
               (primaryType s = None → m = runTrue)).
Proof.
  intros Hc.
  unfold stepFn, andThen, primaryBlock, dumpBlock, bindBlock, testBlock, callRun,
    configured, stepOutput.
  destruct (skipTest o) eqn:Hskip.
  all: destruct (primaryType s) as [k|] eqn:Hk;
    [pose proof (primaryType_not_side _ _ Hk); destruct (primaryOut w) as [e|e|v]|];
    go_unfold; cbn; use_write Hc.
  all: next Hc (dumpRequest s).
  all: next Hc (dumpOut w).
  all: next Hc (bindCond s).
  all: next Hc (bindOut w).
  all: next Hc (testRunner s && negb (testCond s =? "")%string).
  all: repeat match goal with
         | H : skipTest ?a = skipTest _ |- context [skipTest ?a] => rewrite H
         end; rewrite ?Hskip; cbn; use_write Hc.
  all: next Hc (testOut w).
  all: step_done.
Qed.

(** C9.  A step whose only runner is a test runner, run by an operator
    with [skipTest] set: the step function returns [nil], the test
    runner is not called, and the mapping stored is [{run: false}]. *)
Theorem skipped_test_only_step_records_run_false (s : step) (w : iteration) (o : operator) :
  primaryType s = None → dumpRequest s = None → bindCond s = None →
  testRunner s = true → testCond s ≠ "" →
  skipTest o = true → canRecord o = true →
  ∃ o', stepFn s w o = Ret None o' ∧ storedLast o' runFalse ∧
        calls o' = calls o.
Proof.
  intros Hp Hd Hb Ht Hcnd Hskip Hc.
  destruct (stored_after o runFalse Hc) as (o' & Hw & Hs).
  destruct (write_frame _ _ _ Hw) as (_ & Hcalls & _).
  exists o'. split; [|done].
  unfold stepFn, andThen, primaryBlock, dumpBlock, bindBlock, testBlock.
  rewrite Hp, Hd, Hb, Ht, skipStep_write.
  apply String.eqb_neq in Hcnd. rewrite Hcnd. go_unfold. cbn.
  rewrite Hskip. cbn.
  change (write (<["run" := VBool false]> ∅) o = Ret () o') in Hw. by rewrite Hw.
Qed.


(** ** The loop *)

Arguments stepAt : simpl never.

Lemma dropLast_snoc {A} (l : list A) x : dropLast (l ++ [x]) = Some l.
Proof.
  unfold dropLast. destruct (l ++ [x]) eqn:E.
  - by destruct l.
  - rewrite <- E. f_equal. rewrite length_app. cbn.
    replace (length l + 1 - 1)%nat with (length l) by lia.
    by rewrite take_app_length.
Qed.

Lemma stepAt_size o (n : nat) : stepAt o (Z.of_nat n) = steps o !! n.
Proof.
  unfold stepAt. destruct (Z.ltb_spec (Z.of_nat n) 0); [lia|]. by rewrite Nat2Z.id.
Qed.

Lemma canRecord_first o :
  inLaterIteration (store_ o) = false → ready o → canRecord o = true.
Proof.
  intros Hl Hr. unfold canRecord. rewrite Hl.
  destruct (useMap o) eqn:Hm; [|done].
  destruct (Hr Hm) as (s & Hs & _). unfold currentStep in Hs. by rewrite Hs.
Qed.

Lemma write_first o m o1 :
  inLaterIteration (store_ o) = false → ready o →
  write m o = Ret tt o1 → oneMoreSlot o m o1.
Proof.
  intros Hl Hr. unfold write, recordAsMapped, recordAsListed, oneMoreSlot. go_unfold.
  destruct (useMap o) eqn:Hm; cbn; rewrite Hl; cbn.
  - destruct (Hr Hm) as (s & Hs & Hn). unfold currentStep in Hs. rewrite Hs.
    intros [= <-]. by exists s.
  - by intros [= <-].
Qed.

(** A write in a later iteration replaces the slot written in the
    previous one. *)
Lemma write_again o0 m1 o m2 :
  ready o0 → oneMoreSlot o0 m1 o →
  steps o = steps o0 → useMap o = useMap o0 →
  inLaterIteration (store_ o) = true →
  canRecord o = true ∧
  ∀ o2, write m2 o = Ret tt o2 → oneMoreSlot o0 m2 o2.
Proof.
  intros Hr H1 Hst Hm Hl.
  unfold canRecord, write, recordAsMapped, recordAsListed, oneMoreSlot in *. go_unfold.
  rewrite Hm. destruct (useMap o0) eqn:Hm0; cbn; rewrite Hl; cbn.
  - destruct H1 as (s & Hs & Hmap & Hsteps).
    destruct (Hr Hm0) as (s' & Hs' & Hn). rewrite Hs in Hs'; simplify_eq.
    unfold currentStep in Hs. rewrite stepAt_size in Hs.
    assert (HA : stepAt o (Z.of_nat (size (stepMap (store_ o))) - 1) = Some s').
    { rewrite Hmap, map_size_insert_None by done.
      replace (Z.of_nat (S (size (stepMap (store_ o0)))) - 1)
        with (Z.of_nat (size (stepMap (store_ o0)))) by lia.
      by rewrite stepAt_size, Hst. }
    assert (HB : delete (key s') (stepMap (store_ o)) = stepMap (store_ o0)).
    { by rewrite Hmap, delete_insert_eq, delete_id. }
    assert (HC : ∀ f, stepAt (set_store f o) (Z.of_nat (size (stepMap (store_ o0))))
                      = Some s').
    { intros f. rewrite stepAt_size. cbn. by rewrite Hst. }
    rewrite HA. cbn. rewrite HB, !HC.
    split; [by rewrite stepAt_size, Hst, Hs|].
    intros o2 [= <-]. exists s'. cbn. unfold currentStep. rewrite stepAt_size.
    by rewrite HB.
  - destruct H1 as (Hsteps & Hmap). rewrite Hsteps, dropLast_snoc. cbn.
    split; [done|]. intros o2 [= <-]. cbn. by rewrite Hmap.
Qed.

Lemma oneMoreSlot_transfer o o' m a a' :
  useMap o' = useMap o → steps o' = steps o →
  sameSlots (store_ o') (store_ o) → sameSlots (store_ a') (store_ a) →
  oneMoreSlot o' m a → oneMoreSlot o m a'.
Proof.
  unfold oneMoreSlot, sameSlots, currentStep, stepAt.
  intros -> -> [-> ->] [-> ->]. done.
Qed.

Lemma ready_transfer o o' :
  useMap o' = useMap o → steps o' = steps o →
  sameSlots (store_ o') (store_ o) → ready o → ready o'.
Proof.
  unfold ready, sameSlots, currentStep, stepAt. intros -> -> [_ ->]. done.
Qed.

Section Loop.

Context (s : step) (l : Loop) (w : Z → iteration) (c : Z) (o0 : operator).
Hypothesis Hready : ready o0.

Lemma passCalls_succ j : 0 ≤ j → passCalls s (j + 1) = passCalls s j ++ configured s.
Proof.
  intros Hj. unfold passCalls.
  replace (Z.to_nat (j + 1)) with (Z.to_nat j + 1)%nat by lia.
  rewrite replicate_add. cbn. rewrite join_app. cbn. by rewrite app_nil_r.
Qed.

Lemma loop_pass j o :
  0 ≤ j → loopInv s w o0 j o →
  ∃ e o', stepFn s (w j) (set_store (set_loopIndex (Some j)) o) = Ret e o' ∧
          (e = None → loopInv s w o0 (j + 1) o').
Proof.
  intros Hj (Hst & Hm & Hsk & Hslots & cs & Hcalls & Hkinds).
  set (oa := set_store (set_loopIndex (Some j)) o).
  assert (Hlater : inLaterIteration (store_ oa) = (0 <? j)) by done.
  assert (Hwr : canRecord oa = true ∧
                ∀ m o2, write m oa = Ret tt o2 → oneMoreSlot o0 m o2).
  { destruct (Z.eqb_spec j 0) as [->|Hne].
    - assert (ready oa) by (by eapply ready_transfer).
      split; [by apply canRecord_first|].
      intros m o2 Hw. eapply (oneMoreSlot_transfer o0 oa _ o2 o2); try done.
      by apply write_first.
    - assert (Hl : inLaterIteration (store_ oa) = true).
      { rewrite Hlater. apply Z.ltb_lt. lia. }
      destruct (write_again o0 (passOutput s w o0 (j - 1)) oa runTrue Hready) as [Hc _];
        try done.
      split; [done|]. intros m o2 Hw.
      by destruct (write_again o0 (passOutput s w o0 (j - 1)) oa m Hready) as [_ H];
        try done; apply H. }
  destruct Hwr as [Hc Hwr].
  destruct (stepFn_spec s (w j) oa Hc)
    as (e & o' & cs' & Hrun & (Hst' & Hm' & Hsk' & _) & Hcalls' & _ & Hall & Hout & _).
  exists e, o'. split; [done|]. intros ->.
  destruct (Hout eq_refl) as (o1 & Hw & Hsame).
  repeat split.
  - by rewrite Hst'.
  - by rewrite Hm'.
  - by rewrite Hsk'.
  - destruct (Z.eqb_spec (j + 1) 0); [lia|].
    replace (j + 1 - 1) with j by lia.
    eapply (oneMoreSlot_transfer o0 o0 _ o1 o'); try done.
    unfold passOutput. rewrite <- Hsk. by apply Hwr.
  - exists (cs ++ cs'). split.
    + rewrite Hcalls'. cbn. by rewrite Hcalls, app_assoc.
    + intros Hs0. rewrite fmap_app, passCalls_succ, Hkinds by done.
      f_equal. apply Hall; [done|]. cbn. by rewrite Hsk.
Qed.

Lemma loopFor_spec fuel : ∀ j rs t o,
  0 ≤ j → (Z.to_nat (c - j) < fuel)%nat → loopInv s w o0 j o →
  ∃ f o1, loopFor fuel s l w c rs t j o = Ret (Some f) o1 ∧
    match f with
    | LoopReturn e => Until l = "" → ∃ e', e = ErrWrap "loop failed" e'
    | LoopEnd rs' _ j' =>
        rs' = rs ∧ j ≤ j' ≤ Z.max j c ∧ loopInv s w o0 j' o1 ∧
        (j' < c → loopOut (w j') = false)
    | LoopBreak _ j' =>
        j ≤ j' < c ∧ loopInv s w o0 (j' + 1) o1 ∧ Until l ≠ "" ∧
        untilOut (w j') = inr true
    end.
Proof.
  induction fuel as [|fuel IH]; intros j rs t o Hj Hfuel Hinv; [lia|].
  cbn [loopFor].
  destruct (loopOut (w j)) eqn:Hlo; cbn [negb].
  2:{ eexists _, _. split; [reflexivity|].
      refine (conj eq_refl (conj _ (conj Hinv _))); [lia|done]. }
  destruct (Z.leb_spec c j) as [Hcj|Hcj].
  { eexists _, _. split; [reflexivity|].
    refine (conj eq_refl (conj _ (conj Hinv _))); lia. }
  destruct (loop_pass j o Hj Hinv) as (e & o' & Hrun & Hnext).
  go_unfold. cbn. rewrite Hrun.
  destruct e as [e|].
  { eexists _, _. split; [reflexivity|]. cbn. eauto. }
  specialize (Hnext eq_refl).
  assert (Hfuel' : (Z.to_nat (c - (j + 1)) < fuel)%nat) by lia.
  destruct (String.eqb_spec (Until l) "") as [Hu|Hu].
  - destruct (IH (j + 1) rs t o' ltac:(lia) Hfuel' Hnext) as (f & o1 & -> & Hf).
    exists f, o1. split; [done|]. destruct f; [exact Hf| |]; intuition lia.
  - destruct (treeOut (w j)) as [e|t'].
    { eexists _, _. split; [reflexivity|]. cbn. intros; contradiction. }
    destruct (untilOut (w j)) as [e|[]] eqn:Hun.
    + eexists _, _. split; [reflexivity|]. cbn. intros; contradiction.
    + eexists _, _. split; [reflexivity|].
      refine (conj _ (conj Hnext (conj Hu Hun))). lia.
    + destruct (IH (j + 1) rs t' o' ltac:(lia) Hfuel' Hnext) as (f & o1 & -> & Hf).
      exists f, o1. split; [done|]. destruct f; [exact Hf| |]; intuition lia.
Qed.

End Loop.

Lemma runLoop_after s l w c o f o1 :
  loopFor (S (Z.to_nat c)) s l w c (String.eqb (Until l) "") "" 0 o = Ret (Some f) o1 →
  runLoop s l (inr c) w o =
  match afterLoop l c f o1 with
  | Ret e o2 => Ret (Some e) (set_store (set_loopIndex None) o2)
  | Panic => Panic
  end.
Proof.
  intros H. unfold runLoop. go_unfold. rewrite H.
  by destruct (afterLoop l c f o1).
Qed.

Lemma afterLoop_slots l c f o1 e o2 :
  afterLoop l c f o1 = Ret e o2 → sameSlots (store_ o2) (store_ o1).
Proof.
  unfold afterLoop. go_unfold.
  destruct f as [|[]|]; cbn; try by intros [= <- <-].
  destruct (interval l), (minInterval l), (maxInterval l); by intros [= <- <-].
Qed.



(** ** Sharding *)

Section Sharding.

Context {A : Type}.
Implicit Types (ops all : list A) (n i : Z).

Lemma partFrom_app ii all1 all2 n i :
  partFrom ii (all1 ++ all2) n i =
  partFrom ii all1 n i ++ partFrom (ii + Z.of_nat (length all1)) all2 n i.
Proof.
  revert ii. induction all1 as [|o all1 IH]; intros ii; cbn [partFrom app length].
  - by rewrite Z.add_0_r.
  - rewrite IH. replace (ii + 1 + Z.of_nat (length all1))
      with (ii + Z.of_nat (S (length all1))) by lia.
    by destruct (modEq ii n i).
Qed.

Lemma partOperators_snoc ops o n i :
  partOperators (ops ++ [o]) n i =
  partOperators ops n i ++ (if modEq (Z.of_nat (length ops)) n i then [o] else []).
Proof.
  unfold partOperators. rewrite partFrom_app. cbn.
  by destruct (modEq _ n i).
Qed.

Lemma modEq_mod (k : nat) n i :
  1 ≤ n → modEq (Z.of_nat k) n i = bool_decide (Z.of_nat k `mod` n = i).
Proof.
  intros Hn. unfold modEq. destruct (Z.eqb_spec n 0); [lia|].
  rewrite Z.rem_mod_nonneg by lia.
  destruct (Z.eqb_spec (Z.of_nat k `mod` n) i).
  - by rewrite bool_decide_eq_true_2.
  - by rewrite bool_decide_eq_false_2.
Qed.

(** Each shard keeps exactly the operators whose index is congruent to
    the shard index, in their order. *)
Lemma partOperators_filter ops n i :
  1 ≤ n →
  partOperators ops n i =
  (filter (λ p, Z.of_nat p.1 `mod` n = i) (imap pair ops)).*2.
Proof.
  intros Hn. induction ops as [|o ops IH] using rev_ind; [done|].
  rewrite partOperators_snoc, IH, imap_app, filter_app, fmap_app, modEq_mod by done.
  f_equal. cbn. rewrite Nat.add_0_r.
  by case_bool_decide; case_decide.
Qed.

Lemma partOperators_length ops n i :
  1 ≤ n → 0 ≤ i < n →
  Z.of_nat (length (partOperators ops n i)) =
  Z.of_nat (length ops) `div` n +
  (if bool_decide (i < Z.of_nat (length ops) `mod` n) then 1 else 0).
Proof.
  intros Hn Hi. induction ops as [|o ops IH] using rev_ind.
  - cbn. rewrite Z.div_0_l, Z.mod_0_l by lia.
    rewrite bool_decide_eq_false_2 by lia. done.
  - rewrite partOperators_snoc, !length_app, !Nat2Z.inj_add, IH, modEq_mod by done.
    cbn [length]. set (L := Z.of_nat (length ops)).
    pose proof (Z.div_mod L n ltac:(lia)) as HL.
    pose proof (Z.mod_pos_bound L n ltac:(lia)) as Hb.
    destruct (decide (L `mod` n = n - 1)) as [Hlast|Hlast].
    + assert (Hq : (L + Z.of_nat 1) `div` n = L `div` n + 1).
      { symmetry. apply (Z.div_unique _ _ _ 0); lia. }
      assert (Hm : (L + Z.of_nat 1) `mod` n = 0).
      { symmetry. apply (Z.mod_unique _ _ (L `div` n + 1)); lia. }
      rewrite Hq, Hm.
      repeat case_bool_decide; cbn; lia.
    + assert (Hq : (L + Z.of_nat 1) `div` n = L `div` n).
      { symmetry. apply (Z.div_unique _ _ _ (L `mod` n + 1)); lia. }
      assert (Hm : (L + Z.of_nat 1) `mod` n = L `mod` n + 1).
      { symmetry. apply (Z.mod_unique _ _ (L `div` n)); lia. }
      rewrite Hq, Hm.
      repeat case_bool_decide; cbn; lia.
Qed.

Lemma join_one_more (f g : nat → list A) (x : A) (j : nat) (N : nat) :
  (∀ k, g k = f k ++ if bool_decide (k = j) then [x] else []) →
  mjoin (g <$> seq 0 N) ≡ₚ
  mjoin (f <$> seq 0 N) ++ if bool_decide (j < N)%nat then [x] else [].
Proof.
  intros Hg. induction N as [|N IH].
  - cbn. by rewrite bool_decide_eq_false_2 by lia.
  - rewrite seq_S, !fmap_app, !join_app, IH. cbn. rewrite !app_nil_r, Hg.
    repeat case_bool_decide; try lia; rewrite ?app_nil_r; try done.
    + by rewrite <- !app_assoc, (Permutation_app_comm [x]).
    + by rewrite app_assoc.
Qed.

Lemma partOperators_union ops n :
  1 ≤ n →
  mjoin ((λ k : nat, partOperators ops n (Z.of_nat k)) <$> seq 0 (Z.to_nat n)) ≡ₚ ops.
Proof.
  intros Hn. induction ops as [|o ops IH] using rev_ind.
  - unfold partOperators. cbn. induction (seq 0 (Z.to_nat n)); [done|]. by cbn.
  - pose proof (Z.mod_pos_bound (Z.of_nat (length ops)) n ltac:(lia)) as Hb.
    rewrite (join_one_more (λ k, partOperators ops n (Z.of_nat k)) _ o
               (Z.to_nat (Z.of_nat (length ops) `mod` n))).
    + rewrite IH. by rewrite bool_decide_eq_true_2 by lia.
    + intros k. rewrite partOperators_snoc, modEq_mod by done.
      repeat case_bool_decide; try done; lia.
Qed.

End Sharding.

(** C8.  For a shard count [n ≥ 1] the shards [0 .. n-1] partition the
    input: together they hold the input's operators (as a multiset);
    shard [i] keeps, in order, exactly the operators whose index is
    congruent to [i] modulo [n]; an operator of a duplicate-free input
    is in one shard only; and two shard sizes differ by at most one. *)
Theorem partOperators_partition {A} (ops : list A) (n : Z) :
  1 ≤ n →
  mjoin ((λ k : nat, partOperators ops n (Z.of_nat k)) <$> seq 0 (Z.to_nat n)) ≡ₚ ops ∧
  (∀ i, partOperators ops n i =
        (filter (λ p, Z.of_nat p.1 `mod` n = i) (imap pair ops)).*2) ∧
  (NoDup ops → ∀ i i' x,
     x ∈ partOperators ops n i → x ∈ partOperators ops n i' → i = i') ∧
  (∀ i i', 0 ≤ i < n → 0 ≤ i' < n →
     -1 ≤ Z.of_nat (length (partOperators ops n i)) -
          Z.of_nat (length (partOperators ops n i')) ≤ 1).
Proof.
  intros Hn. split; [by apply partOperators_union|].
  split; [intros i; by apply partOperators_filter|]. split.
  - intros Hnd i i' x. rewrite !partOperators_filter by done.
    intros Hi Hi'.
    apply list_elem_of_fmap in Hi as ([k y] & -> & Hi).
    apply list_elem_of_fmap in Hi' as ([k' y'] & Heq & Hi'). cbn in Heq. subst y'.
    apply list_elem_of_filter in Hi as [Hk Hi], Hi' as [Hk' Hi']. cbn in *.
    apply list_elem_of_lookup in Hi as [j Hj], Hi' as [j' Hj'].
    rewrite list_lookup_imap in Hj, Hj'.
    destruct (ops !! j) eqn:Ej; [|done]. destruct (ops !! j') eqn:Ej'; [|done].
    cbn in *. simplify_eq.
    by rewrite (NoDup_lookup _ _ _ _ Hnd Ej Ej').
  - intros i i' Hi Hi'. rewrite !partOperators_length by done.
    repeat case_bool_decide; lia.
Qed.

(** ** The gRPC runner *)

Import Grpc.

Section GrpcProperties.

Context (lib : library).

Lemma credentialsOf_tls x creds :
  credentialsOf lib x = inr creds →
  if useTLS x then ∃ cfg, creds = NewTLS cfg ∧ MinVersion cfg = VersionTLS12
  else creds = InsecureCredentials.
Proof.
  unfold credentialsOf. destruct (useTLS x); [|by intros [= <-]].
  repeat case_match; intros; simplify_eq/=; by eexists.
Qed.


(** C6, as the code has it.  A unary invocation whose call completes
    with a gRPC status returns [nil] and records [res] when the status
    is not OK ([res.status] is the code and [res.message] the status
    message) and when it is OK and the response converts to a mapping
    ([res.message] is that mapping); an OK response that does not
    convert makes the invocation return the conversion error. *)
Theorem unary_status_is_recorded_not_failed
    (md : methodDescriptor) (r : grpcRequest) (w : world)
    (m : grpcMessage) (req : pmsg) (err : option error) (res : pmsg)
    (resHeaders resTrailers : MD) (stat : status) :
  messages r = [m] →
  setMessageOut lib (params m) = inr req →
  invokeOut (net w) = (err, res, resHeaders, resTrailers) →
  FromError err = (stat, true) →
  canRecord (oper w) = true →
  (Code stat ≠ OK →
   ∃ w' d, invokeUnary lib md r w = Ret None w' ∧
           storedLast (oper w')
             (<[storeStepRunKey := VBool true]> {[ grpcStoreResponseKey := VMap d ]}) ∧
           d !! grpcStoreStatusKey = Some (VInt (Code stat)) ∧
           d !! grpcStoreMessageKey = Some (VStr (Message stat))) ∧
  (Code stat = OK →
   ∀ msg, toMap lib res = inr msg →
   ∃ w' d, invokeUnary lib md r w = Ret None w' ∧
           storedLast (oper w')
             (<[storeStepRunKey := VBool true]> {[ grpcStoreResponseKey := VMap d ]}) ∧
           d !! grpcStoreStatusKey = Some (VInt OK) ∧
           d !! grpcStoreMessageKey = Some (VMap msg)) ∧
  (Code stat = OK →
   ∀ e, toMap lib res = inl e →
   invokeUnary lib md r w =
     Ret (Some e) (emit (EvInvoke (FullName md) req) w)).
Proof.
  intros Hms Hreq Hinv Hst Hc.
  assert (Hrec : ∀ d ev, ∃ w', record_res d (emit ev w) = Ret tt w' ∧
            storedLast (oper w')
              (<[storeStepRunKey := VBool true]> {[ grpcStoreResponseKey := VMap d ]})).
  { intros d ev. unfold record_res, operatorRecord. cbn.
    destruct (stored_after (oper w)
      (<[storeStepRunKey := VBool true]> {[ grpcStoreResponseKey := VMap d ]}) Hc)
      as (o' & Hw & Hs).
    change (record (Some (<[grpcStoreResponseKey := VMap d]> ∅)) (oper w) = Ret tt o') in Hw.
    rewrite Hw. by eexists. }
  unfold invokeUnary. rewrite Hms, Hreq. go_unfold. cbn. rewrite Hinv, Hst. cbn.
  split; [|split].
  - intros Hne. destruct (Z.eqb_spec (Code stat) OK) as [|_]; [done|].
    match goal with |- context [record_res ?d (emit ?ev w)] =>
      destruct (Hrec d ev) as (w' & Hr & Hs); rewrite Hr end.
    exists w'. eexists. split; [done|]. split; [exact Hs|]. by split.
  - intros Hok msg Hmsg. rewrite Hok, Hmsg. cbn.
    match goal with |- context [record_res ?d (emit ?ev w)] =>
      destruct (Hrec d ev) as (w' & Hr & Hs); rewrite Hr end.
    exists w'. eexists. split; [done|]. split; [exact Hs|]. by split.
  - intros Hok e He. by rewrite Hok, He.
Qed.


Lemma SendMsg_events req w :
  ∃ e w', SendMsg req w = Ret e w' ∧ events w' = events w ++ [EvSendMsg req] ∧
          oper w' = oper w ∧ rnr w' = rnr w ∧
          closeSendOut (net w') = closeSendOut (net w) ∧
          newStreamOut (net w') = newStreamOut (net w).
Proof. eexists _, _. split; [reflexivity|]. done. Qed.

Lemma clientSendLoop_all ms reqs w :
  allMessages lib ms reqs →
  ∃ w', clientSendLoop lib ms w = Ret None w' ∧
        events w' = events w ++ (EvSendMsg <$> reqs) ∧
        oper w' = oper w ∧ closeSendOut (net w') = closeSendOut (net w).
Proof.
  intros H. revert w. induction H as [|m req ms reqs [Hop Hreq] _ IH]; intros w.
  - exists w. cbn. by rewrite app_nil_r.
  - cbn [clientSendLoop]. rewrite Hop, Hreq. cbn.
    destruct (SendMsg_events req w) as (e & w1 & Hs & Hev & Ho & _ & Hcs & _).
    go_unfold. rewrite Hs.
    destruct (IH w1) as (w' & -> & Hev' & Ho' & Hcs').
    exists w'. split; [done|]. rewrite Hev', Hev, Ho', Ho, Hcs', Hcs.
    by rewrite <- app_assoc.
Qed.

Lemma clientSendLoop_invalid ms1 reqs m ms2 w :
  allMessages lib ms1 reqs → op m ≠ GRPCOpMessage →
  ∃ w', clientSendLoop lib (ms1 ++ m :: ms2) w = Ret (Some (ErrInvalidOp (op m))) w' ∧
        events w' = events w ++ (EvSendMsg <$> reqs) ∧ oper w' = oper w.
Proof.
  intros H Hm. revert w. induction H as [|m1 req ms reqs [Hop Hreq] _ IH]; intros w.
  - exists w. cbn. apply String.eqb_neq in Hm. rewrite Hm. by rewrite app_nil_r.
  - cbn [clientSendLoop app]. rewrite Hop, Hreq. cbn.
    destruct (SendMsg_events req w) as (e & w1 & Hs & Hev & Ho & _).
    go_unfold. rewrite Hs.
    destruct (IH w1) as (w' & -> & Hev' & Ho').
    exists w'. split; [done|]. rewrite Hev', Hev, Ho', Ho.
    by rewrite <- app_assoc.
Qed.

(** C1, as the code has it.  In client-streaming mode an op other than
    [message] (a [close] as well) makes the invocation fail with
    "invalid op": the messages before it have been sent, in order, and
    the stream is neither closed nor read, and nothing is recorded.
    When every op is [message], each message is sent in order, then
    [CloseSend] is called, and the single response is received after
    it (when [CloseSend] succeeded). *)
Theorem client_streaming_rejects_close_sends_in_order
    (md : methodDescriptor) (r : grpcRequest) (w : world) (reqs : list pmsg) :
  newStreamOut (net w) = None →
  (∀ ms1 m ms2,
     messages r = ms1 ++ m :: ms2 → allMessages lib ms1 reqs → op m ≠ GRPCOpMessage →
     ∃ w', invokeClientStreaming lib md r w = Ret (Some (ErrInvalidOp (op m))) w' ∧
           events w' = events w ++ EvNewStream (FullName md) :: (EvSendMsg <$> reqs) ∧
           oper w' = oper w) ∧
  (allMessages lib (messages r) reqs → canRecord (oper w) = true →
   ∃ e w', invokeClientStreaming lib md r w = Ret e w' ∧
     events w' =
       events w ++ EvNewStream (FullName md) :: (EvSendMsg <$> reqs) ++
       EvCloseSend :: (if closeSendOut (net w) is None then [EvRecvMsg] else [])).
Proof.
  intros Hns. split.
  - intros ms1 m ms2 Hms Hall Hop.
    unfold invokeClientStreaming, NewStream. go_unfold. cbn. rewrite Hns, Hms.
    destruct (clientSendLoop_invalid ms1 reqs m ms2
                (emit (EvNewStream (FullName md)) w) Hall Hop) as (w' & -> & Hev & Ho).
    exists w'. split; [done|]. rewrite Hev, Ho. cbn. by rewrite <- app_assoc.
  - intros Hall Hc.
    assert (Hrec : ∀ v, ∃ o', record (Some v) (oper w) = Ret tt o').
    { intros v. rewrite record_write. by apply write_total. }
    unfold invokeClientStreaming, NewStream, CloseSend, RecvMsg, recvNext, finishStream,
      record_res, operatorRecord.
    go_unfold. cbn. rewrite Hns.
    destruct (clientSendLoop_all (messages r) reqs
                (emit (EvNewStream (FullName md)) w) Hall) as (w1 & -> & Hev & Ho & Hcs).
    cbn in Hev, Hcs, Ho. rewrite Hcs. cbn.
    assert (Hpre : ∀ l, (events w1 ++ [EvCloseSend]) ++ l =
              events w ++ EvNewStream (FullName md) :: (EvSendMsg <$> reqs) ++
              EvCloseSend :: l).
    { intros l. rewrite Hev, <- !app_assoc. done. }
    destruct (closeSendOut (net w)) as [ec|]; cbn.
    { eexists _, _. split; [reflexivity|]. cbn. by rewrite <- Hpre, app_nil_r. }
    repeat (case_match; cbn in *; simplify_eq; try done);
      try (eexists _, _; split; [reflexivity|]; cbn; by rewrite <- ?Hpre);
      match goal with
      | H : record (Some ?v) (oper w1) = Panic |- _ =>
          rewrite Ho in H; destruct (Hrec v) as [? ?]; congruence
      end.
Qed.


Lemma FromError_not_ok err stat : FromError err = (stat, false) → err ≠ None.
Proof. by destruct err. Qed.

Lemma bidiOps_return ms : ∀ err d msgs w e w',
  bidiOps lib ms err d msgs w = Ret (OpsReturn e) w' → e ≠ None.
Proof.
  induction ms as [|m ms IH]; intros err d msgs w e w'; cbn [bidiOps]; [done|].
  unfold SendMsg, RecvMsg, recvNext, CloseSend, storeReply. go_unfold. cbn.
  repeat (case_match; cbn in *; simplify_eq; try done);
    try (by intros [= <- <-]); try (by eapply IH);
    try (intros [= <- <-];
         match goal with H : negb ?b = true |- _ => destruct b; [done|] end;
         by eapply FromError_not_ok).
Qed.

Lemma drainOpen_return rs : ∀ d msgs w e w',
  drainOpen lib rs d msgs w = Ret (inl e) w' → e ≠ None.
Proof.
  induction rs as [|r rs IH]; intros d msgs w e w'; cbn [drainOpen];
    unfold recvNext, storeReply; go_unfold; cbn; [done|].
  repeat (case_match; cbn in *; simplify_eq; try done);
    try (by intros [= <- <-]); try (by eapply IH);
    try (intros [= <- <-];
         match goal with H : negb ?b = true |- _ => destruct b; [done|] end;
         by eapply FromError_not_ok).
Qed.

(** A runner without a connection dials at the head of [Run]. *)
Lemma connect_dials w :
  cc (rnr w) = None →
  match credentialsOf lib (rnr w) with
  | inl e => connect lib w = Ret (Some e) w
  | inr creds =>
      let d := mkDial (target (rnr w)) creds 10000000000 in
      ∃ w', connect lib w = Ret (dialOut (net w)) w' ∧
            events w' = events w ++ [EvDial d] ∧
            (dialOut (net w) = None → cc (rnr w') = Some (mkConn d)) ∧
            (∀ r, Run lib r w =
                  match dialOut (net w) with
                  | Some e => Ret (Some e) w'
                  | None => runConnected lib r w'
                  end)
  end.
Proof.
  intros Hcc. unfold Run, connect. go_unfold. cbn. rewrite Hcc.
  destruct (credentialsOf lib (rnr w)) as [e|creds] eqn:Hcr; [done|].
  destruct (dialOut (net w)) as [e|] eqn:Hd; cbn.
  - eexists. split; [reflexivity|]. done.
  - eexists. split; [reflexivity|]. done.
Qed.

(** C7.  A bidi-streaming invocation that records its result (returns
    [nil]) has closed the connection as its last call and leaves the
    runner with [cc] and [refc] nil; so the next [Run] on that runner
    starts by dialling again. *)
Theorem bidi_streaming_drops_connection
    (md : methodDescriptor) (r : grpcRequest) (w w' : world) :
  IsStreamingServer md = true → IsStreamingClient md = true →
  dispatch lib md r w = Ret None w' →
  cc (rnr w') = None ∧ refc (rnr w') = None ∧
  last (events w') = Some EvConnClose ∧
  ∀ w2, rnr w2 = rnr w' →
    match credentialsOf lib (rnr w2) with
    | inl e => connect lib w2 = Ret (Some e) w2
    | inr creds =>
        let d := mkDial (target (rnr w2)) creds 10000000000 in
        ∃ w3, connect lib w2 = Ret (dialOut (net w2)) w3 ∧
              events w3 = events w2 ++ [EvDial d] ∧
              (dialOut (net w2) = None → cc (rnr w3) = Some (mkConn d)) ∧
              (∀ r2, Run lib r2 w2 =
                     match dialOut (net w2) with
                     | Some e => Ret (Some e) w3
                     | None => runConnected lib r2 w3
                     end)
    end.
Proof.
  intros Hs Hc. unfold dispatch. rewrite Hs, Hc. intros Hrun.
  assert (Hnil : cc (rnr w') = None ∧ refc (rnr w') = None ∧
                 last (events w') = Some EvConnClose).
  { revert Hrun. unfold invokeBidiStreaming, NewStream, connClose, record_res,
      operatorRecord. go_unfold. cbn.
    destruct (0 <? timeout r); [done|].
    destruct (newStreamOut (net w)); [done|].
    destruct (bidiOps _ _ _ _ _ _) as [[e|err cl d msgs] w1|] eqn:Hops; [| |done].
    { intros [= -> <-]. by apply bidiOps_return in Hops. }
    destruct (FromError err) as [stat []] eqn:Hfe; cbn.
    2:{ intros [= -> <-]. by apply FromError_not_ok in Hfe. }
    destruct cl.
    - destruct (drainClosed _ _) as [[e|] w2|]; cbn; [done| |done].
      destruct (closeOut (net w2)); [done|]. cbn.
      repeat (case_match; cbn in *; simplify_eq; try done);
        intros [= <-]; cbn; by rewrite last_snoc.
    - destruct err as [e|].
      + cbn. destruct (closeOut (net w1)); [done|]. cbn.
        repeat (case_match; cbn in *; simplify_eq; try done);
          intros [= <-]; cbn; by rewrite last_snoc.
      + destruct (drainOpen _ _ _ _ _) as [[e|[d' msgs']] w2|] eqn:Hdr; cbn; [|  |done].
        { intros [= -> <-]. by apply drainOpen_return in Hdr. }
        destruct (closeOut (net w2)); [done|]. cbn.
        repeat (case_match; cbn in *; simplify_eq; try done);
          intros [= <-]; cbn; by rewrite last_snoc. }
  destruct Hnil as (Hcc & Hrefc & Hlast). repeat split; try done.
  intros w2 Hw2. apply connect_dials. by rewrite Hw2.
Qed.

End GrpcProperties.

Import Examples.

(** The claim of C1 as the specification words it fails on a request
    with a [close] op: the invocation returns "invalid op: close" after
    the one message was sent, and [CloseSend] is never called. *)
Lemma client_streaming_close_op_is_invalid :
  ∃ w', invokeClientStreaming exLibrary exClient exCloseRequest exWorld =
          Ret (Some (ErrInvalidOp "close")) w' ∧
        events w' = [EvNewStream "pkg.Svc.Upload"; EvSendMsg "request"] ∧
        (EvCloseSend ∉ events w') ∧ oper w' = oper exWorld.
Proof.
  eexists. split; [vm_compute; reflexivity|]. cbn.
  split; [reflexivity|]. split; [|reflexivity].
  intros H. repeat (apply elem_of_cons in H as [H|H]; [discriminate|]).
  by apply elem_of_nil in H.
Qed.

Lemma client_streaming_rejects_close_sends_in_order_witness :
  newStreamOut (net exWorld) = None ∧
  allMessages exLibrary (messages exUploadRequest) ["request"; "request"] ∧
  canRecord (oper exWorld) = true ∧
  ∃ e w', invokeClientStreaming exLibrary exClient exUploadRequest exWorld = Ret e w' ∧
          events w' = [EvNewStream "pkg.Svc.Upload"; EvSendMsg "request";
                       EvSendMsg "request"; EvCloseSend; EvRecvMsg].
Proof.
  assert (H1 : newStreamOut (net exWorld) = None) by reflexivity.
  assert (H2 : allMessages exLibrary (messages exUploadRequest) ["request"; "request"]).
  { repeat constructor. }
  assert (H3 : canRecord (oper exWorld) = true) by reflexivity.
  split; [exact H1|]. split; [exact H2|]. split; [exact H3|].
  exact (proj2 (client_streaming_rejects_close_sends_in_order
                  exLibrary exClient exUploadRequest exWorld ["request"; "request"] H1)
               H2 H3).
Defined.

Lemma record_and_skipStep_set_run_witness :
  canRecord exMapOperator = true ∧
  ∃ o', skipStep exMapOperator = Ret tt o' ∧
        storedLast o' {[ storeStepRunKey := VBool false ]}.
Proof.
  assert (H : canRecord exMapOperator = true) by reflexivity.
  split; [exact H|].
  exact (proj2 (record_and_skipStep_set_run exMapOperator None H)).
Defined.





(** The claim of C6 as the specification words it fails when the call
    completes with status OK and the response does not convert: the
    invocation returns the conversion error and records nothing. *)
Lemma unary_ok_status_fails_when_response_does_not_convert :
  FromError (invokeOut (net exWorld)).1.1.1 = (mkStatus OK "", true) ∧
  invokeUnary exLibraryNoJSON exUnary exUnaryRequest exWorld =
    Ret (Some (ErrMsg "proto: cannot marshal response"))
        (emit (EvInvoke "pkg.Svc.Echo" "request") exWorld).
Proof. split; vm_compute; reflexivity. Qed.

Lemma unary_status_is_recorded_not_failed_witness :
  messages exUnaryRequest = [exMessage] ∧
  setMessageOut exLibrary (params exMessage) = inr "request" ∧
  invokeOut (net exWorld) = (None, "response", ∅, ∅) ∧
  FromError None = (mkStatus OK "", true) ∧
  canRecord (oper exWorld) = true ∧
  ∀ msg, toMap exLibrary "response" = inr msg →
   ∃ w' d, invokeUnary exLibrary exUnary exUnaryRequest exWorld = Ret None w' ∧
           storedLast (oper w')
             (<[storeStepRunKey := VBool true]> {[ grpcStoreResponseKey := VMap d ]}) ∧
           d !! grpcStoreStatusKey = Some (VInt OK) ∧
           d !! grpcStoreMessageKey = Some (VMap msg).
Proof.
  assert (H1 : messages exUnaryRequest = [exMessage]) by reflexivity.
  assert (H2 : setMessageOut exLibrary (params exMessage) = inr "request") by reflexivity.
  assert (H3 : invokeOut (net exWorld) = (None, "response", ∅, ∅)) by reflexivity.
  assert (H4 : FromError None = (mkStatus OK "", true)) by reflexivity.
  assert (H5 : canRecord (oper exWorld) = true) by reflexivity.
  repeat (split; [assumption|]).
  exact (proj1 (proj2 (unary_status_is_recorded_not_failed exLibrary exUnary
                         exUnaryRequest exWorld exMessage "request" None "response"
                         ∅ ∅ (mkStatus OK "") H1 H2 H3 H4 H5)) eq_refl).
Defined.

Lemma bidi_streaming_drops_connection_witness :
  IsStreamingServer exBidi = true ∧ IsStreamingClient exBidi = true ∧
  dispatch exLibrary exBidi exChatRequest exWorld = Ret None exWorldAfterChat ∧
  cc (rnr exWorldAfterChat) = None ∧ refc (rnr exWorldAfterChat) = None ∧
  last (events exWorldAfterChat) = Some EvConnClose.
Proof.
  assert (H1 : IsStreamingServer exBidi = true) by reflexivity.
  assert (H2 : IsStreamingClient exBidi = true) by reflexivity.
  assert (H3 : dispatch exLibrary exBidi exChatRequest exWorld
               = Ret None exWorldAfterChat) by (vm_compute; reflexivity).
  repeat (split; [assumption|]).
  destruct (bidi_streaming_drops_connection exLibrary exBidi exChatRequest exWorld
              exWorldAfterChat H1 H2 H3) as (Hcc & Hrefc & Hlast & _).
  exact (conj Hcc (conj Hrefc Hlast)).
Defined.

Lemma partOperators_partition_witness :
  1 ≤ 3 ∧
  mjoin ((λ k : nat, partOperators ["a"; "b"; "c"; "d"; "e"] 3 (Z.of_nat k))
           <$> seq 0 (Z.to_nat 3)) ≡ₚ ["a"; "b"; "c"; "d"; "e"].
Proof.
  assert (H : 1 ≤ 3) by lia.
  split; [exact H|].
  exact (proj1 (partOperators_partition ["a"; "b"; "c"; "d"; "e"] 3 H)).
Defined.

Lemma skipped_test_only_step_records_run_false_witness :
  primaryType exTestStep = None ∧ dumpRequest exTestStep = None ∧
  bindCond exTestStep = None ∧ testRunner exTestStep = true ∧
  testCond exTestStep ≠ "" ∧ skipTest exSkipOperator = true ∧
  canRecord exSkipOperator = true ∧
  ∃ o', stepFn exTestStep exIteration exSkipOperator = Ret None o' ∧
        storedLast o' runFalse ∧ calls o' = calls exSkipOperator.
Proof.
  assert (H1 : primaryType exTestStep = None) by reflexivity.
  assert (H2 : dumpRequest exTestStep = None) by reflexivity.
  assert (H3 : bindCond exTestStep = None) by reflexivity.
  assert (H4 : testRunner exTestStep = true) by reflexivity.
  assert (H5 : testCond exTestStep ≠ "").
  { intros H. vm_compute in H. discriminate H. }
  assert (H6 : skipTest exSkipOperator = true) by reflexivity.
  assert (H7 : canRecord exSkipOperator = true) by reflexivity.
  repeat (split; [assumption|]).
  exact (skipped_test_only_step_records_run_false exTestStep exIteration exSkipOperator
           H1 H2 H3 H4 H5 H6 H7).
Defined.

